(** * Secret Santa: the feasibility check and the assignment engine of
    [main.py], embedded in Rocq.

    Python dictionaries keep insertion order and have unique keys; they are
    association lists here ([dict]), with [dict_wf] saying that the keys are
    pairwise distinct.  Operations that can raise in Python ([d[k]],
    [l.remove(x)], [random.choice(l)]) return in the error monad [res].
    The random source is a stream of draws; [random.choice] consumes one
    draw and indexes the sequence with it.

    The engine is embedded twice.  The first embedding passes the values
    of the local variables from one iteration to the next; the claims on
    the returned mapping are proved on it.  The second one, in [Heap],
    keeps dicts and lists as objects of a store that are updated in place;
    it is shown to compute the same outcome and to leave the objects of
    the caller alone. *)

From Stdlib Require Import String List Arith Bool Lia Permutation.
From Stdlib Require Import Ascii.
Import ListNotations.

Local Open Scope string_scope.
Local Open Scope list_scope.

(** ** Exceptions and the error monad *)

Inductive exn : Type :=
| KeyError
| ValueError
| IndexError
| TypeError.

Inductive res (A : Type) : Type :=
| Ok (a : A)
| Err (e : exn).

Arguments Ok {A} a.
Arguments Err {A} e.

Definition bind {A B : Type} (c : res A) (k : A -> res B) : res B :=
  match c with
  | Ok a => k a
  | Err e => Err e
  end.

Notation "x <- c ;; k" := (bind c (fun x => k))
  (at level 61, c at next level, right associativity).
Notation "' pat <- c ;; k" := (bind c (fun x => match x with pat => k end))
  (at level 61, pat pattern, c at next level, right associativity).

(** ** Names, lists and dictionaries *)

Definition name : Type := string.

(** [x in l] on a list of names. *)
Definition list_contains (x : name) (l : list name) : bool :=
  existsb (String.eqb x) l.

(** [l.remove(x)]: drops the first occurrence, raises [ValueError] when
    there is none. *)
Fixpoint list_remove (x : name) (l : list name) : res (list name) :=
  match l with
  | [] => Err ValueError
  | y :: l' =>
      if y =? x then Ok l'
      else l'' <- list_remove x l' ;; Ok (y :: l'')
  end.

Definition dict (V : Type) : Type := list (name * V).

Definition dict_keys {V : Type} (d : dict V) : list name := map fst d.
Definition dict_values {V : Type} (d : dict V) : list V := map snd d.

(** Uniqueness of keys, which every Python dict has. *)
Definition dict_wf {V : Type} (d : dict V) : Prop := NoDup (dict_keys d).

(** [d[k]]: raises [KeyError] on a missing key. *)
Fixpoint dict_get {V : Type} (d : dict V) (k : name) : res V :=
  match d with
  | [] => Err KeyError
  | (k', v) :: d' => if k =? k' then Ok v else dict_get d' k
  end.

(** [d[k] = v]: replaces the value in place, or appends a new entry. *)
Fixpoint dict_set {V : Type} (d : dict V) (k : name) (v : V) : dict V :=
  match d with
  | [] => [(k, v)]
  | (k', v') :: d' =>
      if k =? k' then (k', v) :: d' else (k', v') :: dict_set d' k v
  end.

(** [k in d]. *)
Definition dict_contains {V : Type} (d : dict V) (k : name) : bool :=
  list_contains k (dict_keys d).

(** [n != p] where [p] is a partner entry: a name or [None].  A name is
    never equal to [None]. *)
Definition ne_partner (n : name) (p : option name) : bool :=
  match p with
  | Some q => negb (n =? q)
  | None => true
  end.

(** A list comprehension [[x for x in l if cond(x)]] whose condition may
    raise. *)
Fixpoint filterM {A : Type} (cond : A -> res bool) (l : list A) : res (list A) :=
  match l with
  | [] => Ok []
  | x :: l' =>
      b <- cond x ;;
      rest <- filterM cond l' ;;
      Ok (if b then x :: rest else rest)
  end.

(** ** The feasibility check *)

(** [[name for name in names if name != santa and name != participants[santa]]];
    [and] is short-circuit, so the lookup happens only for [name != santa]. *)
Definition recipients_of (participants : dict (option name))
    (names : list name) (santa : name) : res (list name) :=
  filterM (fun n =>
             if negb (n =? santa)
             then p <- dict_get participants santa ;; Ok (ne_partner n p)
             else Ok false)
          names.

(** The body of [for santa in participants] over the remaining keys. *)
Fixpoint check_santas (participants : dict (option name))
    (santas : list name) : res bool :=
  match santas with
  | [] => Ok true
  | santa :: rest =>
      possible_recipients <-
        recipients_of participants (dict_keys participants) santa ;;
      match possible_recipients with
      | [] => Ok false
      | _ :: _ => check_santas participants rest
      end
  end.

Definition is_assignment_possible (participants : dict (option name)) : res bool :=
  check_santas participants (dict_keys participants).

(** The candidate set in the specification's words: all participants
    except [P] and except the partner declared for [P]. *)
Definition candidate_set (participants : dict (option name))
    (P : name) (partner : option name) : list name :=
  filter (fun n => negb (n =? P) && ne_partner n partner)
         (dict_keys participants).

(** ** The random source *)

(** The draws of the generator, in the order they are consumed. *)
Definition rng : Type := nat -> nat.

Definition rng_next (r : rng) : rng := fun i => r (S i).

(** [random.choice(seq)]: the element at index [draw mod len(seq)];
    [IndexError] on the empty sequence. *)
Definition choice {A : Type} (r : rng) (seq : list A) : res (A * rng) :=
  match nth_error seq (r 0 mod length seq) with
  | Some x => Ok (x, rng_next r)
  | None => Err IndexError
  end.

(** ** The assignment engine *)

(** A dict comprehension [{n: value(n) for n in names}], filling [acc]. *)
Fixpoint dict_comprehension {V : Type} (value : name -> res V)
    (names : list name) (acc : dict V) : res (dict V) :=
  match names with
  | [] => Ok acc
  | n :: rest =>
      v <- value n ;;
      dict_comprehension value rest (dict_set acc n v)
  end.

(** The local variables of [assign_secret_santa] that the loop updates. *)
Record state : Type := mkState {
  valid_assignments : dict (list name);
  assignments : dict name;
  all_names : list name
}.

(** Lines 115-119: the state in which the loop is entered. *)
Definition initial_state (participants : dict (option name))
    (pre_assigned : dict name) : res state :=
  let all_names := dict_keys participants in
  valid_assignments <-
    dict_comprehension (recipients_of participants all_names) all_names [] ;;
  let assignments := pre_assigned (* .copy() *) in
  let all_names :=
    filter (fun n => negb (dict_contains pre_assigned n)) all_names in
  Ok (mkState valid_assignments assignments all_names).

(** Lines 136-138: [for name in valid_assignments], over the remaining
    keys [names]; the list under [name] is replaced by the list without
    [giftee]. *)
Fixpoint remove_giftee (giftee : name) (names : list name)
    (valid_assignments : dict (list name)) : res (dict (list name)) :=
  match names with
  | [] => Ok valid_assignments
  | n :: rest =>
      l <- dict_get valid_assignments n ;;
      if list_contains giftee l
      then l' <- list_remove giftee l ;;
           remove_giftee giftee rest (dict_set valid_assignments n l')
      else remove_giftee giftee rest valid_assignments
  end.

(** What one pass through the loop body does: [return None], or fall
    through to the next test of the loop condition. *)
Inductive step : Type :=
| Stuck
| Continue (st : state) (r : rng).

(** The recipients left for [santa]: line 126. *)
Definition unassigned (assignments : dict name) (l : list name) : list name :=
  filter (fun recipient =>
            negb (list_contains recipient (dict_values assignments))) l.

(** Lines 122-138. *)
Definition loop_body (st : state) (r : rng) : res step :=
  '(santa, r1) <- choice r (all_names st) ;;
  possible_recipients <- dict_get (valid_assignments st) santa ;;
  let possible_recipients := unassigned (assignments st) possible_recipients in
  match possible_recipients with
  | [] => Ok Stuck
  | _ :: _ =>
      '(giftee, r2) <- choice r1 possible_recipients ;;
      let assignments' := dict_set (assignments st) santa giftee in
      all_names' <- list_remove santa (all_names st) ;;
      valid_assignments' <-
        remove_giftee giftee (dict_keys (valid_assignments st))
                      (valid_assignments st) ;;
      Ok (Continue (mkState valid_assignments' assignments' all_names') r2)
  end.

(** How a call ends: with a value ([None] or the mapping), with an
    exception, or not within the given number of iterations. *)
Inductive outcome : Type :=
| Returned (v : option (dict name))
| Raised (e : exn)
| OutOfFuel.

(** [while all_names: ...] followed by [return assignments], running at
    most [fuel] iterations. *)
Fixpoint while_loop (fuel : nat) (st : state) (r : rng) : outcome :=
  match all_names st with
  | [] => Returned (Some (assignments st))
  | _ :: _ =>
      match fuel with
      | 0 => OutOfFuel
      | S fuel' =>
          match loop_body st r with
          | Err e => Raised e
          | Ok Stuck => Returned None
          | Ok (Continue st' r') => while_loop fuel' st' r'
          end
      end
  end.

Definition assign_secret_santa_fuel (fuel : nat)
    (participants : dict (option name)) (pre_assigned : dict name)
    (r : rng) : outcome :=
  match initial_state participants pre_assigned with
  | Err e => Raised e
  | Ok st => while_loop fuel st r
  end.

(** The number of givers the loop has to resolve: the participants that
    are not keys of [pre_assigned]. *)
Definition unresolved (participants : dict (option name))
    (pre_assigned : dict name) : list name :=
  filter (fun n => negb (dict_contains pre_assigned n)) (dict_keys participants).

(** The engine, given one iteration per unresolved giver. *)
Definition assign_secret_santa (participants : dict (option name))
    (pre_assigned : dict name) (r : rng) : outcome :=
  assign_secret_santa_fuel (length (unresolved participants pre_assigned))
                           participants pre_assigned r.

(** The state after [n] completed iterations, when the loop gets that
    far. *)
Fixpoint after_iterations (n : nat) (st : state) (r : rng) : option (state * rng) :=
  match n with
  | 0 => Some (st, r)
  | S n' =>
      match all_names st with
      | [] => None
      | _ :: _ =>
          match loop_body st r with
          | Ok (Continue st' r') => after_iterations n' st' r'
          | _ => None
          end
      end
  end.

(** The state of a call after [n] completed iterations of its loop. *)
Definition reach (participants : dict (option name)) (pre_assigned : dict name)
    (r : rng) (n : nat) : option (state * rng) :=
  match initial_state participants pre_assigned with
  | Ok st => after_iterations n st r
  | Err _ => None
  end.

(** Truth value of the engine's result, as [while not assignment] tests
    it: [None] and the empty dict are false. *)
Definition truthy (v : option (dict name)) : bool :=
  match v with
  | None => false
  | Some [] => false
  | Some (_ :: _) => true
  end.

(** Lines 215-217: [while not assignment: assignment = assign_secret_santa(...)],
    running at most [fuel] attempts.  [attempts k] is the state of the
    generator when attempt [k] starts. *)
Fixpoint retry_loop (fuel : nat) (participants : dict (option name))
    (pre_assigned : dict name) (attempts : nat -> rng) (k : nat) : outcome :=
  match fuel with
  | 0 => OutOfFuel
  | S fuel' =>
      match assign_secret_santa participants pre_assigned (attempts k) with
      | Returned assignment =>
          if truthy assignment then Returned assignment
          else retry_loop fuel' participants pre_assigned attempts (S k)
      | Raised e => Raised e
      | OutOfFuel => OutOfFuel
      end
  end.

(** A total mapping that meets all the constraints, in the
    specification's words: every participant gives once, every participant
    is a receiver exactly once, nobody is mapped to itself or to its
    declared partner. *)
Definition valid_assignment (participants : dict (option name))
    (m : dict name) : Prop :=
  Permutation (dict_keys m) (dict_keys participants) /\
  Permutation (dict_values m) (dict_keys participants) /\
  forall g recv, In (g, recv) m ->
    recv <> g /\
    forall partner, dict_get participants g = Ok partner -> partner <> Some recv.

(** ** Scenarios *)

(** Three participants without partners, and [A] pre-assigned to [B]. *)
Definition trio : dict (option name) := [("A", None); ("B", None); ("C", None)].
Definition trio_pre : dict name := [("A", "B")].
Definition trio_result : dict name := [("A", "B"); ("B", "C"); ("C", "A")].

(** A couple and a single participant. *)
Definition couple_and_single : dict (option name) :=
  [("A", Some "B"); ("B", Some "A"); ("C", None)].

(** A generator whose every draw is [1]. *)
Definition ones : rng := fun _ => 1.

(** The available candidates in the specification's words: the candidate
    set of the giver minus every receiver used in the result mapping. *)
Definition available (participants : dict (option name))
    (assignments : dict name) (giver : name) (partner : option name) : list name :=
  filter (fun c => negb (list_contains c (dict_values assignments)))
         (candidate_set participants giver partner).

(** At some step of the attempt the randomly selected unresolved giver
    has no available candidate. *)
Definition stuck_somewhere (participants : dict (option name))
    (pre_assigned : dict name) (r : rng) : Prop :=
  exists n st r' santa r'' partner,
    reach participants pre_assigned r n = Some (st, r') /\
    choice r' (all_names st) = Ok (santa, r'') /\
    dict_get participants santa = Ok partner /\
    available participants (assignments st) santa partner = [].

(** ** Pure counterparts of the updates, and the loop invariant *)

(** [l] without the first occurrence of [x], if there is one. *)
Fixpoint remove1 (x : name) (l : list name) : list name :=
  match l with
  | [] => []
  | y :: l' => if y =? x then l' else y :: remove1 x l'
  end.

(** The partner entry of a participant ([None] for anybody else). *)
Definition partner_of (participants : dict (option name)) (n : name) : option name :=
  match dict_get participants n with
  | Ok p => p
  | Err _ => None
  end.

Definition candidates (participants : dict (option name)) (n : name) : list name :=
  candidate_set participants n (partner_of participants n).

(** Striking a claimed receiver from every candidate list. *)
Definition strike (giftee : name) (va : dict (list name)) : dict (list name) :=
  map (fun e => (fst e, remove1 giftee (snd e))) va.

(** The state in which the loop is entered, computed without lookups. *)
Definition state0 (participants : dict (option name))
    (pre_assigned : dict name) : state :=
  mkState (map (fun n => (n, candidates participants n)) (dict_keys participants))
          pre_assigned
          (unresolved participants pre_assigned).

(** The state the loop body leaves when [santa] draws [giftee]. *)
Definition next_state (st : state) (santa giftee : name) : state :=
  mkState (strike giftee (valid_assignments st))
          (assignments st ++ [(santa, giftee)])
          (remove1 santa (all_names st)).

(** What holds of the local variables at every test of the loop
    condition.  [extra] are the entries the engine has added. *)
Record inv (participants : dict (option name)) (pre_assigned : dict name)
    (st : state) : Prop := mkInv {
  inv_va_keys : dict_keys (valid_assignments st) = dict_keys participants;
  inv_va_sub : forall n l, In (n, l) (valid_assignments st) ->
                           incl l (candidates participants n);
  inv_va_sup : forall n l x, In (n, l) (valid_assignments st) ->
                             In x (candidates participants n) ->
                             ~ In x (dict_values (assignments st)) ->
                             In x l;
  inv_names_nodup : NoDup (all_names st);
  inv_names_sub : incl (all_names st) (dict_keys participants);
  inv_names_fresh : forall n, In n (all_names st) ->
                              ~ In n (dict_keys (assignments st));
  inv_keys_perm : Permutation (dict_keys (assignments st) ++ all_names st)
                              (dict_keys pre_assigned ++
                               unresolved participants pre_assigned);
  inv_extra : exists extra,
      assignments st = pre_assigned ++ extra /\
      NoDup (dict_values extra) /\
      forall g r, In (g, r) extra ->
                  ~ In g (dict_keys pre_assigned) /\
                  In r (candidates participants g) /\
                  ~ In r (dict_values pre_assigned)
}.

(** * The engine on a store of objects

    Dicts and lists are mutable objects reached through references.  The
    arguments of [assign_secret_santa] are references into the caller's
    store; [pre_assigned.copy()], the comprehensions and the dict of
    candidate lists allocate new objects; [assignments[santa] = giftee],
    [all_names.remove(santa)] and [valid_assignments[name].remove(giftee)]
    update objects in place.  Lists that are built and only read
    ([list(participants.keys())], the filtered [possible_recipients]) are
    kept as values. *)

Module Heap.

Definition loc : Type := nat.

Inductive value : Type :=
| VNone
| VStr (s : name)
| VRef (l : loc).

Inductive object : Type :=
| ODict (d : dict value)
| OList (l : list name).

(** The store: the object at address [l] is the [l]-th element. *)
Definition heap : Type := list object.

(** Computations that read and update the store and may raise; the
    updates made before an exception stay. *)
Definition hm (A : Type) : Type := heap -> res A * heap.

Definition ret {A : Type} (a : A) : hm A := fun h => (Ok a, h).

Definition raise {A : Type} (e : exn) : hm A := fun h => (Err e, h).

Definition lift {A : Type} (c : res A) : hm A := fun h => (c, h).

Definition hbind {A B : Type} (c : hm A) (k : A -> hm B) : hm B :=
  fun h =>
    match c h with
    | (Ok a, h') => k a h'
    | (Err e, h') => (Err e, h')
    end.

Notation "x <~ c ;; k" := (hbind c (fun x => k))
  (at level 61, c at next level, right associativity).
Notation "' pat <~ c ;; k" := (hbind c (fun x => match x with pat => k end))
  (at level 61, pat pattern, c at next level, right associativity).

Fixpoint update (l : loc) (o : object) (h : heap) : heap :=
  match h, l with
  | [], _ => []
  | _ :: h', 0 => o :: h'
  | o' :: h', S l' => o' :: update l' o h'
  end.

(** A new object, at the first free address. *)
Definition alloc (o : object) : hm loc :=
  fun h => (Ok (length h), h ++ [o]).

Definition load (l : loc) : hm object :=
  fun h =>
    match nth_error h l with
    | Some o => (Ok o, h)
    | None => (Err TypeError, h)
    end.

Definition store (l : loc) (o : object) : hm unit :=
  fun h =>
    if Nat.ltb l (length h) then (Ok tt, update l o h) else (Err TypeError, h).

Definition load_dict (l : loc) : hm (dict value) :=
  o <~ load l ;;
  match o with
  | ODict d => ret d
  | OList _ => raise TypeError
  end.

Definition load_list (l : loc) : hm (list name) :=
  o <~ load l ;;
  match o with
  | OList ns => ret ns
  | ODict _ => raise TypeError
  end.

(** [n != v] for a name and a stored value. *)
Definition ne_value (n : name) (v : value) : bool :=
  match v with
  | VStr q => negb (n =? q)
  | VNone | VRef _ => true
  end.

(** [recipient in vs] for a name and stored values. *)
Definition values_contain (recipient : name) (vs : list value) : bool :=
  existsb (fun v => match v with
                    | VStr s => recipient =? s
                    | VNone | VRef _ => false
                    end) vs.

(** The comprehension of lines 28 and 116; it only reads the store. *)
Definition recipients_of (participants : loc) (names : list name)
    (santa : name) : hm (list name) :=
  d <~ load_dict participants ;;
  lift (filterM (fun n =>
                   if negb (n =? santa)
                   then p <- dict_get d santa ;; Ok (ne_value n p)
                   else Ok false)
                names).

(** The local variables that hold references to updated objects. *)
Record frame : Type := mkFrame {
  valid_assignments : loc;
  assignments : loc;
  all_names : loc
}.

(** Line 116, item by item: a new list for every name, stored in the
    dict under construction. *)
Fixpoint fill (participants : loc) (all names : list name) (va : loc) : hm unit :=
  match names with
  | [] => ret tt
  | n :: rest =>
      l <~ recipients_of participants all n ;;
      ref <~ alloc (OList l) ;;
      d <~ load_dict va ;;
      _ <~ store va (ODict (dict_set d n (VRef ref))) ;;
      fill participants all rest va
  end.

(** Lines 115-119. *)
Definition enter (participants pre_assigned : loc) : hm frame :=
  d <~ load_dict participants ;;
  let all := dict_keys d in
  va <~ alloc (ODict []) ;;
  _ <~ fill participants all all va ;;
  pre <~ load_dict pre_assigned ;;
  asg <~ alloc (ODict pre) ;;
  names <~ alloc (OList (filter (fun n => negb (dict_contains pre n)) all)) ;;
  ret (mkFrame va asg names).

(** Lines 136-138. *)
Fixpoint remove_giftee (giftee : name) (names : list name) (va : loc) : hm unit :=
  match names with
  | [] => ret tt
  | n :: rest =>
      d <~ load_dict va ;;
      v <~ lift (dict_get d n) ;;
      match v with
      | VRef ref =>
          l <~ load_list ref ;;
          if list_contains giftee l
          then l' <~ lift (list_remove giftee l) ;;
               _ <~ store ref (OList l') ;;
               remove_giftee giftee rest va
          else remove_giftee giftee rest va
      | VNone | VStr _ => raise TypeError
      end
  end.

Inductive step : Type :=
| Stuck
| Continue (r : rng).

(** Lines 122-138. *)
Definition loop_body (f : frame) (r : rng) : hm step :=
  names <~ load_list (all_names f) ;;
  '(santa, r1) <~ lift (choice r names) ;;
  va <~ load_dict (valid_assignments f) ;;
  v <~ lift (dict_get va santa) ;;
  match v with
  | VRef ref =>
      possible_recipients <~ load_list ref ;;
      asg <~ load_dict (assignments f) ;;
      let possible_recipients :=
        filter (fun recipient =>
                  negb (values_contain recipient (dict_values asg)))
               possible_recipients in
      match possible_recipients with
      | [] => ret Stuck
      | _ :: _ =>
          '(giftee, r2) <~ lift (choice r1 possible_recipients) ;;
          _ <~ store (assignments f) (ODict (dict_set asg santa (VStr giftee))) ;;
          names' <~ lift (list_remove santa names) ;;
          _ <~ store (all_names f) (OList names') ;;
          _ <~ remove_giftee giftee (dict_keys va) (valid_assignments f) ;;
          ret (Continue r2)
      end
  | VNone | VStr _ => raise TypeError
  end.

(** How a call ends; a returned mapping is a reference. *)
Inductive outcome : Type :=
| Returned (v : option loc)
| Raised (e : exn)
| OutOfFuel.

Fixpoint while_loop (fuel : nat) (f : frame) (r : rng) (h : heap) : outcome * heap :=
  match load_list (all_names f) h with
  | (Err e, h') => (Raised e, h')
  | (Ok [], h') => (Returned (Some (assignments f)), h')
  | (Ok (_ :: _), h') =>
      match fuel with
      | 0 => (OutOfFuel, h')
      | S fuel' =>
          match loop_body f r h' with
          | (Err e, h'') => (Raised e, h'')
          | (Ok Stuck, h'') => (Returned None, h'')
          | (Ok (Continue r'), h'') => while_loop fuel' f r' h''
          end
      end
  end.

Definition assign_secret_santa (fuel : nat) (participants pre_assigned : loc)
    (r : rng) (h : heap) : outcome * heap :=
  match enter participants pre_assigned h with
  | (Err e, h') => (Raised e, h')
  | (Ok f, h') => while_loop fuel f r h'
  end.

(** The objects that hold a [participants] and an [assignments] dict. *)
Definition partner_value (p : option name) : value :=
  match p with
  | Some s => VStr s
  | None => VNone
  end.

Definition dict_map {V W : Type} (f : V -> W) (d : dict V) : dict W :=
  map (fun e => (fst e, f (snd e))) d.

Definition participants_object (participants : dict (option name)) : object :=
  ODict (dict_map partner_value participants).

Definition assignments_object (assignments : dict name) : object :=
  ODict (dict_map VStr assignments).

(** The references the dict of candidate lists holds when it is allocated
    at [base] and its lists right behind it. *)
Definition refs (base : nat) (keys : list name) : dict value :=
  combine keys (map VRef (seq (S base) (length keys))).

End Heap.

(** The caller's store [h0] followed by the objects of a call: the dict
    of candidate lists, the lists, the assignments and the unresolved
    givers. *)
Definition layout (h0 : Heap.heap) (keys : list name) (lists : list (list name))
    (asg : dict Heap.value) (names : list name) : Heap.heap :=
  h0 ++ Heap.ODict (Heap.refs (length h0) keys)
     :: map Heap.OList lists ++ [Heap.ODict asg; Heap.OList names].

(** The store a call has made of [h0] when its local variables are [st]. *)
Definition shape (h0 : Heap.heap) (st : state) : Heap.heap :=
  layout h0 (dict_keys (valid_assignments st))
         (dict_values (valid_assignments st))
         (Heap.dict_map Heap.VStr (assignments st))
         (all_names st).

Definition frame_of (h0 : Heap.heap) (k : nat) : Heap.frame :=
  Heap.mkFrame (length h0) (length h0 + 1 + k) (length h0 + 2 + k).

(** The outcome on the store that corresponds to an outcome of the
    engine on values, for a mapping held at [a] in the store [h]. *)
Definition same_outcome (out : outcome) (hout : Heap.outcome)
    (h : Heap.heap) : Prop :=
  match out with
  | Returned None => hout = Heap.Returned None
  | Returned (Some m) =>
      exists a, hout = Heap.Returned (Some a) /\
                nth_error h a = Some (Heap.assignments_object m)
  | Raised e => hout = Heap.Raised e
  | OutOfFuel => hout = Heap.OutOfFuel
  end.

(** * The console layer

    The functions of [main.py] that talk to the user.  The standard input
    is the list of the lines still to be read; [input] takes the first one
    and raises [EOFError] when there is none.  What a function writes is
    the list of its events, in order.  [str.strip] and [str.lower] are
    parameters: nothing is assumed of them.  A [while True] loop runs on
    fuel, one iteration more than there are lines to read. *)

Module Console.

Inductive event : Type :=
| Printed (s : string)
| Prompted (s : string)
| Cleared.

Inductive io_exn : Type :=
| EOFError
| SystemExit (code : option nat)
| AttributeError
| CoreError (e : exn).

Inductive io_result (A : Type) : Type :=
| Ret (a : A)
| Exc (e : io_exn)
| Diverged.

Arguments Ret {A} a.
Arguments Exc {A} e.
Arguments Diverged {A}.

(** From the lines to read to the result, the lines left and the events
    written. *)
Definition io (A : Type) : Type :=
  list string -> io_result A * list string * list event.

Definition ret {A : Type} (a : A) : io A := fun ins => (Ret a, ins, []).

Definition raise {A : Type} (e : io_exn) : io A := fun ins => (Exc e, ins, []).

Definition io_bind {A B : Type} (c : io A) (k : A -> io B) : io B :=
  fun ins =>
    match c ins with
    | (Ret a, ins', out) =>
        match k a ins' with
        | (r, ins'', out') => (r, ins'', out ++ out')
        end
    | (Exc e, ins', out) => (Exc e, ins', out)
    | (Diverged, ins', out) => (Diverged, ins', out)
    end.

Notation "x <~ c ;; k" := (io_bind c (fun x => k))
  (at level 61, c at next level, right associativity).

(** A result of the core, with its exception if it raised. *)
Definition lift {A : Type} (c : res A) : io A :=
  match c with
  | Ok a => ret a
  | Err e => raise (CoreError e)
  end.

(** [print(s)]. *)
Definition print (s : string) : io unit := fun ins => (Ret tt, ins, [Printed s]).

(** [input(prompt)]: the prompt is written before the line is read. *)
Definition input (prompt : string) : io string :=
  fun ins =>
    match ins with
    | [] => (Exc EOFError, [], [Prompted prompt])
    | line :: rest => (Ret line, rest, [Prompted prompt])
    end.

(** [input()]. *)
Definition input_bare : io string :=
  fun ins =>
    match ins with
    | [] => (Exc EOFError, [], [])
    | line :: rest => (Ret line, rest, [])
    end.

(** [os.system('cls' if os.name == 'nt' else 'clear')]. *)
Definition clear_screen : io unit := fun ins => (Ret tt, ins, [Cleared]).

(** A loop that ends by [break] or [return] ([inr]) and goes on by
    [continue] or by reaching the end of its body ([inl]). *)
Fixpoint loop {S A : Type} (fuel : nat) (body : S -> io (S + A)) (s : S) : io A :=
  match fuel with
  | 0 => fun ins => (Diverged, ins, [])
  | Datatypes.S fuel' =>
      r <~ body s ;;
      match r with
      | inl s' => loop fuel' body s'
      | inr a => ret a
      end
  end.

Definition while_true {S A : Type} (body : S -> io (S + A)) (s : S) : io A :=
  fun ins => loop (Datatypes.S (length ins)) body s ins.

(** A computation that ends on every input: by a return that leaves no
    more lines than there were (fewer, where [strict] says so), or by an
    exception among [allowed]. *)
Definition bounded {A : Type} (strict : A -> bool) (allowed : io_exn -> Prop)
    (c : io A) : Prop :=
  forall ins,
    match c ins with
    | (Ret a, ins', _) =>
        if strict a then length ins' < length ins
        else length ins' <= length ins
    | (Exc e, _, _) => allowed e
    | (Diverged, _, _) => False
    end.

(** Whether a pass through a loop body has to use up input: it has to
    when the loop goes on. *)
Definition goes_on {S A : Type} (strict : A -> bool) (r : S + A) : bool :=
  match r with
  | inl _ => true
  | inr a => strict a
  end.

(** The newline character. *)
Definition nl : string := String (ascii_of_nat 10) EmptyString.

(** [c in s] for a character. *)
Fixpoint contains_char (c : ascii) (s : string) : bool :=
  match s with
  | EmptyString => false
  | String c' s' => Ascii.eqb c' c || contains_char c s'
  end.

(** [s.split(c)] for a character. *)
Fixpoint split (c : ascii) (s : string) : list string :=
  match s with
  | EmptyString => [EmptyString]
  | String c' s' =>
      if Ascii.eqb c' c then EmptyString :: split c s'
      else match split c s' with
           | [] => [String c' EmptyString]
           | part :: parts => String c' part :: parts
           end
  end.

Section Strings.

Variable strip : string -> string.
Variable lower : string -> string.

(** What a line answers to a yes/no question, if anything. *)
Definition yes_no (response : string) : option bool :=
  let response := lower (strip response) in
  if list_contains response ["yes"; "y"] then Some true
  else if list_contains response ["no"; "n"] then Some false
  else None.

(** The events of lines that are no answer: the prompt and the
    complaint, for each. *)
Definition rejected (prompt : string) (bad : list string) : list event :=
  flat_map (fun _ =>
              [Prompted prompt;
               Printed "Invalid response. Please answer with 'yes', 'no', 'y', or 'n'."])
           bad.

(** Lines 173-179: one pass through the loop. *)
Definition get_yes_or_no_input_body (prompt : string) (_ : unit) : io (unit + bool) :=
  response <~ input prompt ;;
  let response := lower (strip response) in
  if list_contains response ["yes"; "y"] then ret (inr true)
  else if list_contains response ["no"; "n"] then ret (inr false)
  else
    _ <~ print "Invalid response. Please answer with 'yes', 'no', 'y', or 'n'." ;;
    ret (inl tt).

(** Lines 162-179. *)
Definition get_yes_or_no_input (prompt : string) : io bool :=
  while_true (get_yes_or_no_input_body prompt) tt.

(** The events of revealing one entry. *)
Definition reveal_block (e : name * name) : list event :=
  [Prompted (nl ++ fst e ++ ": (Press Enter to reveal)")%string;
   Printed ("-> " ++ snd e)%string;
   Prompted "Press Enter to continue...";
   Cleared].

(** Lines 154-160: [for santa in assignment], over the remaining keys. *)
Fixpoint reveal_each (assignment : dict name) (santas : list name) : io unit :=
  match santas with
  | [] => ret tt
  | santa :: rest =>
      _ <~ input (nl ++ santa ++ ": (Press Enter to reveal)")%string ;;
      receiver <~ lift (dict_get assignment santa) ;;
      _ <~ print ("-> " ++ receiver)%string ;;
      _ <~ input "Press Enter to continue..." ;;
      _ <~ clear_screen ;;
      reveal_each assignment rest
  end.

(** Lines 142-160. *)
Definition reveal_assignments (assignment : dict name) : io unit :=
  _ <~ print (nl ++ "Do you want to see the assignments? (yes/no): ")%string ;;
  answer <~ input_bare ;;
  if negb (lower (strip answer) =? "yes")
  then _ <~ print "Exiting program." ;; raise (SystemExit None)
  else reveal_each assignment (dict_keys assignment).

(** The events of one lookup in [check_assignments_again], for the line
    typed as the name. *)
Definition lookup_block (assignment : dict name) (line : string) : list event :=
  [Prompted "Does anyone need to see their assignment again? (yes/no): ";
   Prompted "Enter your name to see your Secret Santa assignment: ";
   Printed (match dict_get assignment (strip line) with
            | Ok receiver => ("Your Secret Santa assignment is: " ++ receiver)%string
            | Err _ => "Name not found. Please try again."
            end);
   Prompted "Press Enter to continue...";
   Cleared].

(** The lines of a lookup: the answer, the name, and Enter. *)
Definition lookup_lines (q : string * string * string) : list string :=
  [fst (fst q); snd (fst q); snd q].

(** Lines 189-201: one pass through the loop. *)
Definition check_assignments_again_body (assignment : dict name) (_ : unit)
  : io (unit + unit) :=
  again <~ get_yes_or_no_input
             "Does anyone need to see their assignment again? (yes/no): " ;;
  if negb again
  then _ <~ print "Exiting program." ;; ret (inr tt)
  else
    santa <~ input "Enter your name to see your Secret Santa assignment: " ;;
    let santa := strip santa in
    if dict_contains assignment santa
    then
      receiver <~ lift (dict_get assignment santa) ;;
      _ <~ print ("Your Secret Santa assignment is: " ++ receiver)%string ;;
      _ <~ input "Press Enter to continue..." ;;
      _ <~ clear_screen ;;
      ret (inl tt)
    else
      _ <~ print "Name not found. Please try again." ;;
      _ <~ input "Press Enter to continue..." ;;
      _ <~ clear_screen ;;
      ret (inl tt).

(** Lines 181-201. *)
Definition check_assignments_again (assignment : dict name) : io unit :=
  while_true (check_assignments_again_body assignment) tt.

(** The local variables of [input_participants] that outlive an
    iteration of its loops. *)
Record entry : Type := mkEntry {
  participants : dict (option name);
  pre_assigned : dict name;
  in_pre_assignment : bool
}.

(** What the loop on the names keeps of [participants]: the keys are
    distinct and not empty, nobody is their own partner, and a partner
    that is not the empty string is a participant too. *)
Definition partners_ok (ps : dict (option name)) : Prop :=
  dict_wf ps /\
  (forall n, In n (dict_keys ps) -> n <> "") /\
  (forall n p, dict_get ps n = Ok (Some p) ->
               p <> n /\ (p <> "" -> In p (dict_keys ps))).

(** [partner == name] for a partner that may be [None]. *)
Definition partner_is (partner : option name) (n : name) : bool :=
  match partner with
  | Some p => p =? n
  | None => false
  end.

(** What a well-formed line says: the giver and the receiver around its
    only [>]. *)
Definition says (line : string) (gr : string * string) : Prop :=
  strip line = (fst gr ++ String ">"%char (snd gr))%string /\
  contains_char ">"%char (fst gr) = false /\
  contains_char ">"%char (snd gr) = false.

(** Lines 67-76: one pass through the loop on the lines of the form
    [Giver > Receiver]. *)
Definition read_pre_assignments_body (pre_assigned : dict name)
  : io (dict name + dict name) :=
  assignment <~ input_bare ;;
  let assignment := strip assignment in
  if assignment =? "1" then ret (inr pre_assigned)
  else
    pre_assigned <~
      (if contains_char ">"%char assignment
       then match split ">"%char assignment with
            | [giver; receiver] =>
                ret (dict_set pre_assigned (strip giver) (strip receiver))
            | _ =>
                _ <~ print "Invalid format for assignment. Please use 'Giver > Receiver'." ;;
                ret pre_assigned
            end
       else ret pre_assigned) ;;
    _ <~ clear_screen ;;
    ret (inl pre_assigned).

(** Lines 66-76. *)
Definition read_pre_assignments (pre_assigned : dict name) : io (dict name) :=
  while_true read_pre_assignments_body pre_assigned.

(** Lines 53-88: one pass through the loop that reads the names. *)
Definition read_names_body (st : entry) : io (entry + entry) :=
  name <~ input "Enter participant's name: " ;;
  let name := strip name in
  if name =? "" then
    _ <~ print "Please enter a valid name." ;;
    ret (inl st)
  else if name =? "1" then
    if in_pre_assignment st
    then ret (inr (mkEntry (participants st) (pre_assigned st) false))
    else
      _ <~ print "Enter pre-determined assignments (format: Giver > Receiver). Type '1' to finish." ;;
      pre <~ read_pre_assignments (pre_assigned st) ;;
      ret (inl (mkEntry (participants st) pre true))
  else if lower name =? "done" then ret (inr st)
  else
    partner <~ input ("Enter " ++ name ++ "'s partner's name (or 'none' if no partner): ")%string ;;
    let partner := strip partner in
    let partner := if lower partner =? "none" then None else Some partner in
    if partner_is partner name then
      _ <~ print "A participant cannot be their own partner. Please re-enter." ;;
      ret (inl st)
    else
      let ps := dict_set (participants st) name partner in
      let ps :=
        match partner with
        | Some p =>
            if negb (p =? "") && negb (dict_contains ps p)
            then dict_set ps p (Some name)
            else ps
        | None => ps
        end in
      ret (inl (mkEntry ps (pre_assigned st) (in_pre_assignment st))).

(** [pair in displayed_pairs]. *)
Definition pair_in (pair : name * name) (displayed_pairs : list (name * name)) : bool :=
  existsb (fun q => (fst pair =? fst q) && (snd pair =? snd q)) displayed_pairs.

(** Lines 91-96: [for participant, partner in participants.items()]. *)
Fixpoint display (items : list (name * option name))
    (displayed_pairs : list (name * name)) : io unit :=
  match items with
  | [] => ret tt
  | (participant, partner) :: rest =>
      match partner with
      | Some p =>
          if negb (p =? "")
          then
            if negb (pair_in (participant, p) displayed_pairs)
               && negb (pair_in (p, participant) displayed_pairs)
            then
              _ <~ print (participant ++ " - " ++ p)%string ;;
              display rest ((participant, p) :: displayed_pairs)
            else display rest displayed_pairs
          else
            _ <~ print (participant ++ " - None")%string ;;
            display rest displayed_pairs
      | None =>
          _ <~ print (participant ++ " - None")%string ;;
          display rest displayed_pairs
      end
  end.

(** Lines 48-100: one pass through the outer loop. *)
Definition input_participants_body (st : entry)
  : io (entry + dict (option name) * dict name) :=
  _ <~ print (nl ++ "Enter the names of participants. Type 'done' when finished.")%string ;;
  st <~ while_true read_names_body
          (mkEntry [] (pre_assigned st) (in_pre_assignment st)) ;;
  _ <~ print (nl ++ "Participants and their partners:")%string ;;
  _ <~ display (participants st) [] ;;
  confirm <~ input (nl ++ "Is the above information correct? (yes/no): ")%string ;;
  if lower (strip confirm) =? "yes"
  then ret (inr (participants st, pre_assigned st))
  else ret (inl st).

(** Lines 34-102. *)
Definition input_participants : io (dict (option name) * dict name) :=
  while_true input_participants_body (mkEntry [] [] false).

(** ** The main program *)

(** The two dicts of the pair that line 213 assigns to [participants]. *)
Inductive element : Type :=
| Participants (d : dict (option name))
| PreAssigned (d : dict name).

(** [d1 == d2] on dicts: as many entries, and every key of [d1] bound in
    [d2] to an equal value. *)
Definition dict_eqb {V W : Type} (eqv : V -> W -> bool)
    (d1 : dict V) (d2 : dict W) : bool :=
  Nat.eqb (length d1) (length d2) &&
  forallb (fun e => match dict_get d2 (fst e) with
                    | Ok w => eqv (snd e) w
                    | Err _ => false
                    end) d1.

Definition partner_eqb (p q : option name) : bool :=
  match p, q with
  | Some a, Some b => a =? b
  | None, None => true
  | _, _ => false
  end.

Definition element_eqb (x y : element) : bool :=
  match x, y with
  | Participants d1, Participants d2 => dict_eqb partner_eqb d1 d2
  | Participants d1, PreAssigned d2 => dict_eqb partner_is d1 d2
  | PreAssigned d1, Participants d2 => dict_eqb (fun n p => partner_is p n) d1 d2
  | PreAssigned d1, PreAssigned d2 => dict_eqb String.eqb d1 d2
  end.

(** [t[i]] for a tuple [t] and a dict [i]: tuple indices must be
    integers. *)
Definition tuple_index (t : list element) (i : element) : res element :=
  Err TypeError.

(** Lines 27-31 when [participants] is the pair: the names are its two
    dicts. *)
Definition recipients_of_pair (t : list element) (santa : element) : res (list element) :=
  filterM (fun n =>
             if negb (element_eqb n santa)
             then p <- tuple_index t santa ;; Ok (negb (element_eqb n p))
             else Ok false)
          t.

Fixpoint check_santas_pair (t santas : list element) : res bool :=
  match santas with
  | [] => Ok true
  | santa :: rest =>
      possible_recipients <- recipients_of_pair t santa ;;
      match possible_recipients with
      | [] => Ok false
      | _ :: _ => check_santas_pair t rest
      end
  end.

(** What the variable [participants] of the main program holds: the dict
    unpacked at line 205, or the whole pair assigned at line 213. *)
Inductive participants_value : Type :=
| AsDict (d : dict (option name))
| AsPair (d : dict (option name)) (pre : dict name).

Definition is_assignment_possible_value (v : participants_value) : res bool :=
  match v with
  | AsDict d => is_assignment_possible d
  | AsPair d pre =>
      let t := [Participants d; PreAssigned pre] in check_santas_pair t t
  end.

(** Lines 215-217, at most [fuel] attempts: [not assignment] holds of
    [None] and of the empty dict.  [attempts k] is the state of the
    generator when attempt [k] starts. *)
Fixpoint retry (fuel : nat) (participants : dict (option name))
    (pre_assigned : dict name) (attempts : nat -> rng) (k : nat) : io (dict name) :=
  match fuel with
  | 0 => fun ins => (Diverged, ins, [])
  | Datatypes.S fuel' =>
      match assign_secret_santa participants pre_assigned (attempts k) with
      | Returned (Some (e :: m)) => ret (e :: m)
      | Returned (Some []) | Returned None =>
          retry fuel' participants pre_assigned attempts (Datatypes.S k)
      | Raised e => raise (CoreError e)
      | OutOfFuel => fun ins => (Diverged, ins, [])
      end
  end.

(** The exceptions the main program can end with once the check has
    failed. *)
Definition after_infeasible (e : io_exn) : Prop :=
  e = EOFError \/ e = SystemExit (Some 0) \/ e = CoreError TypeError.

(** Lines 207-213: one pass through the loop on the feasibility check. *)
Definition feasibility_body (participants : participants_value)
  : io (participants_value + participants_value) :=
  possible <~ lift (is_assignment_possible_value participants) ;;
  if possible then ret (inr participants)
  else
    _ <~ print (nl ++ "Assignment is not possible with the current set of participants.")%string ;;
    choice <~ input "Do you want to re-enter participant information? (yes/no): " ;;
    if negb (lower (strip choice) =? "yes")
    then _ <~ print "Exiting program." ;; raise (SystemExit (Some 0))
    else
      t <~ input_participants ;;
      ret (inl (AsPair (fst t) (snd t))).

(** Lines 205-220. *)
Definition main (fuel : nat) (attempts : nat -> rng) : io unit :=
  t <~ input_participants ;;
  let participants := fst t in
  let pre_assigned := snd t in
  participants <~ while_true feasibility_body (AsDict participants) ;;
  match participants with
  | AsDict participants =>
      assignment <~ retry fuel participants pre_assigned attempts 0 ;;
      _ <~ reveal_assignments assignment ;;
      check_assignments_again assignment
  | AsPair _ _ => raise AttributeError
  end.

End Strings.

(** [strip] and [lower] on ASCII text, for running the functions. *)
Definition is_space (c : ascii) : bool :=
  let n := nat_of_ascii c in
  Nat.eqb n 32 || (Nat.leb 9 n && Nat.leb n 13).

Fixpoint lstrip (s : string) : string :=
  match s with
  | EmptyString => EmptyString
  | String c s' => if is_space c then lstrip s' else s
  end.

Fixpoint rstrip (s : string) : string :=
  match s with
  | EmptyString => EmptyString
  | String c s' =>
      match rstrip s' with
      | EmptyString => if is_space c then EmptyString else String c EmptyString
      | t => String c t
      end
  end.

Definition ascii_strip (s : string) : string := rstrip (lstrip s).

Fixpoint ascii_lower (s : string) : string :=
  match s with
  | EmptyString => EmptyString
  | String c s' =>
      let n := nat_of_ascii c in
      String (if Nat.leb 65 n && Nat.leb n 90 then ascii_of_nat (n + 32) else c)
             (ascii_lower s')
  end.

End Console.

(** * Properties *)

(** ** Lists and dictionaries *)

Lemma list_contains_true (x : name) (l : list name) :
  list_contains x l = true <-> In x l.
Proof.
  unfold list_contains. rewrite existsb_exists. split.
  - intros (y & Hy & E). apply String.eqb_eq in E. now subst.
  - intros H. exists x. split; [assumption | apply String.eqb_refl].
Qed.

Lemma list_contains_false (x : name) (l : list name) :
  list_contains x l = false <-> ~ In x l.
Proof.
  rewrite <- list_contains_true. destruct (list_contains x l); intuition congruence.
Qed.

Lemma dict_get_in_keys {V : Type} (d : dict V) (k : name) :
  In k (dict_keys d) -> exists v, dict_get d k = Ok v.
Proof.
  induction d as [|[k' v'] d IH]; simpl; [tauto|].
  intros H. destruct (String.eqb_spec k k') as [E|N].
  - now exists v'.
  - destruct H as [H|H]; [congruence | auto].
Qed.

Lemma dict_get_ok_in {V : Type} (d : dict V) (k : name) (v : V) :
  dict_get d k = Ok v -> In (k, v) d.
Proof.
  induction d as [|[k' v'] d IH]; simpl; [discriminate|].
  destruct (String.eqb_spec k k') as [E|N].
  - intros [= ->]. subst. now left.
  - auto.
Qed.

Lemma dict_get_ok_key {V : Type} (d : dict V) (k : name) (v : V) :
  dict_get d k = Ok v -> In k (dict_keys d).
Proof.
  intros H. apply dict_get_ok_in in H.
  apply (in_map fst) in H. exact H.
Qed.

Lemma filterM_ok {A : Type} (cond : A -> res bool) (q : A -> bool) (l : list A) :
  (forall x, In x l -> cond x = Ok (q x)) ->
  filterM cond l = Ok (filter q l).
Proof.
  induction l as [|x l IH]; simpl; intros H; [reflexivity|].
  rewrite (H x) by now left. simpl.
  rewrite IH by (intros; apply H; now right). simpl.
  reflexivity.
Qed.

Lemma recipients_of_ok (participants : dict (option name))
    (names : list name) (santa : name) (p : option name) :
  dict_get participants santa = Ok p ->
  recipients_of participants names santa =
  Ok (filter (fun n => negb (n =? santa) && ne_partner n p) names).
Proof.
  intros Hp. unfold recipients_of. apply filterM_ok.
  intros n _. rewrite Hp. simpl. now destruct (negb (n =? santa)).
Qed.

(** ** The feasibility check *)

Lemma check_santas_false (participants : dict (option name)) (santas : list name) :
  incl santas (dict_keys participants) ->
  (check_santas participants santas = Ok false <->
   exists P partner, In P santas /\ dict_get participants P = Ok partner /\
                     candidate_set participants P partner = []).
Proof.
  induction santas as [|santa rest IH]; intros Hincl; simpl.
  - split; [discriminate | intros (P & _ & [] & _)].
  - destruct (dict_get_in_keys participants santa) as [p Hp];
      [apply Hincl; now left|].
    rewrite (recipients_of_ok _ _ _ _ Hp). simpl.
    assert (Hrest : incl rest (dict_keys participants))
      by (intros x Hx; apply Hincl; now right).
    fold (candidate_set participants santa p).
    destruct (candidate_set participants santa p) as [|c cs] eqn:Ec.
    + split; [intros _|reflexivity].
      exists santa, p. auto.
    + rewrite (IH Hrest). split.
      * intros (P & q & HP & Hq & Hc). exists P, q. auto.
      * intros (P & q & [HP|HP] & Hq & Hc).
        -- subst P. rewrite Hp in Hq. injection Hq as <-. congruence.
        -- exists P, q. auto.
Qed.

Lemma check_santas_total (participants : dict (option name)) (santas : list name) :
  incl santas (dict_keys participants) ->
  exists b, check_santas participants santas = Ok b.
Proof.
  induction santas as [|santa rest IH]; intros Hincl; simpl.
  - now exists true.
  - destruct (dict_get_in_keys participants santa) as [p Hp];
      [apply Hincl; now left|].
    rewrite (recipients_of_ok _ _ _ _ Hp). simpl.
    destruct (filter _ _).
    + now exists false.
    + apply IH. intros x Hx. apply Hincl. now right.
Qed.

(** C5: the check answers [False] exactly when some participant's
    candidate set (everybody but the participant and the declared partner)
    is empty, and [True] in every other case; it never raises. *)
Theorem is_assignment_possible_spec (participants : dict (option name)) :
  (is_assignment_possible participants = Ok false <->
   exists P partner, dict_get participants P = Ok partner /\
                     candidate_set participants P partner = []) /\
  (is_assignment_possible participants = Ok true <->
   ~ exists P partner, dict_get participants P = Ok partner /\
                       candidate_set participants P partner = []).
Proof.
  unfold is_assignment_possible.
  pose proof (check_santas_false participants (dict_keys participants)
                (incl_refl _)) as Hf.
  destruct (check_santas_total participants (dict_keys participants)
              (incl_refl _)) as [b Hb].
  assert (Hiff :
    (exists P partner, In P (dict_keys participants) /\
        dict_get participants P = Ok partner /\
        candidate_set participants P partner = []) <->
    (exists P partner, dict_get participants P = Ok partner /\
        candidate_set participants P partner = [])).
  { split.
    - intros (P & q & _ & H1 & H2). eauto.
    - intros (P & q & H1 & H2). exists P, q.
      split; [eapply dict_get_ok_key; eassumption | auto]. }
  rewrite <- Hiff, <- Hf. rewrite Hb.
  destruct b; split; split; intros H; try reflexivity; congruence.
Qed.

(** ** The list and dict updates *)

Lemma list_remove_in (x : name) (l : list name) :
  In x l -> list_remove x l = Ok (remove1 x l).
Proof.
  induction l as [|y l IH]; simpl; [tauto|].
  intros H. destruct (String.eqb_spec y x) as [E|N]; [reflexivity|].
  destruct H as [H|H]; [congruence|].
  rewrite (IH H). reflexivity.
Qed.

Lemma remove1_not_in (x : name) (l : list name) :
  ~ In x l -> remove1 x l = l.
Proof.
  induction l as [|y l IH]; simpl; [reflexivity|].
  intros H. destruct (String.eqb_spec y x) as [E|N]; [tauto|].
  f_equal. apply IH. tauto.
Qed.

Lemma remove1_perm (x : name) (l : list name) :
  In x l -> Permutation l (x :: remove1 x l).
Proof.
  induction l as [|y l IH]; simpl; [tauto|].
  intros H. destruct (String.eqb_spec y x) as [E|N].
  - subst. reflexivity.
  - destruct H as [H|H]; [congruence|].
    rewrite perm_swap. constructor. auto.
Qed.

Lemma remove1_incl (x : name) (l : list name) : incl (remove1 x l) l.
Proof.
  induction l as [|y l IH]; simpl; [easy|].
  destruct (String.eqb_spec y x) as [E|N].
  - apply incl_tl, incl_refl.
  - intros z [Hz|Hz]; [now left | right; auto].
Qed.

Lemma remove1_keeps (x y : name) (l : list name) :
  In y l -> y <> x -> In y (remove1 x l).
Proof.
  induction l as [|z l IH]; simpl; [tauto|].
  intros H N. destruct (String.eqb_spec z x) as [E|N'].
  - destruct H; [congruence | assumption].
  - destruct H; [now left | right; auto].
Qed.

Lemma remove1_length (x : name) (l : list name) :
  In x l -> length l = S (length (remove1 x l)).
Proof.
  intros H. apply remove1_perm in H.
  apply Permutation_length in H. exact H.
Qed.

Lemma remove1_nodup (x : name) (l : list name) :
  NoDup l -> NoDup (remove1 x l) /\ ~ In x (remove1 x l).
Proof.
  intros Hnd. destruct (in_dec string_dec x l) as [Hin|Hnin].
  - pose proof (remove1_perm x l Hin) as P.
    pose proof (Permutation_NoDup P Hnd) as Hnd'.
    inversion Hnd'; subst. auto.
  - rewrite remove1_not_in by assumption. auto.
Qed.

Lemma dict_set_fresh {V : Type} (d : dict V) (k : name) (v : V) :
  ~ In k (dict_keys d) -> dict_set d k v = d ++ [(k, v)].
Proof.
  induction d as [|[k0 v0] d IH]; simpl; [reflexivity|].
  intros H. destruct (String.eqb_spec k k0) as [E|N]; [subst; tauto|].
  f_equal. apply IH. tauto.
Qed.

Lemma dict_set_middle {V : Type} (pre post : dict V) (k : name) (v v' : V) :
  ~ In k (dict_keys pre) ->
  dict_set (pre ++ (k, v) :: post) k v' = pre ++ (k, v') :: post.
Proof.
  induction pre as [|[k0 v0] pre IH]; simpl.
  - intros _. now rewrite String.eqb_refl.
  - intros H. destruct (String.eqb_spec k k0) as [E|N]; [subst; tauto|].
    f_equal. apply IH. tauto.
Qed.

Lemma dict_get_middle {V : Type} (pre post : dict V) (k : name) (v : V) :
  ~ In k (dict_keys pre) ->
  dict_get (pre ++ (k, v) :: post) k = Ok v.
Proof.
  induction pre as [|[k0 v0] pre IH]; simpl.
  - intros _. now rewrite String.eqb_refl.
  - intros H. destruct (String.eqb_spec k k0) as [E|N]; [subst; tauto|].
    apply IH. tauto.
Qed.

Lemma dict_get_app {V : Type} (d1 d2 : dict V) (k : name) :
  dict_get (d1 ++ d2) k =
  if list_contains k (dict_keys d1) then dict_get d1 k else dict_get d2 k.
Proof.
  induction d1 as [|[k0 v0] d1 IH]; simpl; [reflexivity|].
  unfold list_contains in *. simpl.
  destruct (String.eqb_spec k k0) as [E|N]; simpl; [reflexivity | exact IH].
Qed.

Lemma dict_keys_app {V : Type} (d1 d2 : dict V) :
  dict_keys (d1 ++ d2) = dict_keys d1 ++ dict_keys d2.
Proof. apply map_app. Qed.

Lemma dict_values_app {V : Type} (d1 d2 : dict V) :
  dict_values (d1 ++ d2) = dict_values d1 ++ dict_values d2.
Proof. apply map_app. Qed.

(** ** The random choice *)

Lemma choice_nonempty {A : Type} (r : rng) (seq : list A) :
  seq <> [] -> exists x, In x seq /\ choice r seq = Ok (x, rng_next r).
Proof.
  intros Hne. unfold choice.
  assert (Hlt : r 0 mod length seq < length seq).
  { apply Nat.mod_upper_bound. destruct seq; [congruence | simpl; lia]. }
  destruct (nth_error seq (r 0 mod length seq)) as [x|] eqn:E.
  - exists x. split; [eapply nth_error_In; eassumption | reflexivity].
  - apply nth_error_None in E. lia.
Qed.

(** ** The candidate-recipient index *)

Lemma dict_comprehension_ok {V : Type} (value : name -> res V) (g : name -> V)
    (names : list name) (acc : dict V) :
  (forall n, In n names -> value n = Ok (g n)) ->
  NoDup names ->
  (forall n, In n names -> ~ In n (dict_keys acc)) ->
  dict_comprehension value names acc = Ok (acc ++ map (fun n => (n, g n)) names).
Proof.
  revert acc. induction names as [|n names IH]; intros acc Hv Hnd Hfresh; simpl.
  - now rewrite app_nil_r.
  - rewrite (Hv n) by now left. simpl.
    rewrite dict_set_fresh by (apply Hfresh; now left).
    inversion Hnd as [|? ? Hn Hnd']; subst.
    rewrite IH.
    + now rewrite <- app_assoc.
    + intros; apply Hv; now right.
    + assumption.
    + intros m Hm. rewrite dict_keys_app, in_app_iff. simpl.
      intros [H|[H|[]]].
      * apply (Hfresh m); [now right | assumption].
      * congruence.
Qed.

Lemma remove_giftee_ok (giftee : name) (done todo : dict (list name)) :
  NoDup (dict_keys (done ++ todo)) ->
  remove_giftee giftee (dict_keys todo) (done ++ todo) =
  Ok (done ++ strike giftee todo).
Proof.
  revert done. induction todo as [|[n l] todo IH]; intros done Hnd; simpl.
  - reflexivity.
  - assert (Hn : ~ In n (dict_keys done)).
    { rewrite dict_keys_app in Hnd. simpl in Hnd.
      apply NoDup_remove_2 in Hnd. rewrite in_app_iff in Hnd. tauto. }
    rewrite dict_get_middle by assumption. simpl.
    destruct (list_contains giftee l) eqn:Ec.
    + apply list_contains_true in Ec.
      rewrite (list_remove_in _ _ Ec). simpl.
      rewrite dict_set_middle by assumption.
      change (done ++ (n, remove1 giftee l) :: todo)
        with (done ++ [(n, remove1 giftee l)] ++ todo).
      rewrite app_assoc. rewrite IH.
      * now rewrite <- app_assoc.
      * rewrite <- app_assoc. simpl.
        rewrite !dict_keys_app in *. simpl in *. exact Hnd.
    + apply list_contains_false in Ec.
      rewrite (remove1_not_in _ _ Ec).
      change (done ++ (n, l) :: todo) with (done ++ [(n, l)] ++ todo).
      rewrite app_assoc. rewrite IH.
      * now rewrite <- app_assoc.
      * now rewrite <- app_assoc.
Qed.

Lemma strike_keys (giftee : name) (va : dict (list name)) :
  dict_keys (strike giftee va) = dict_keys va.
Proof.
  unfold strike, dict_keys. rewrite map_map. reflexivity.
Qed.

Lemma strike_in (giftee : name) (va : dict (list name)) (n : name) (l' : list name) :
  In (n, l') (strike giftee va) ->
  exists l, In (n, l) va /\ l' = remove1 giftee l.
Proof.
  unfold strike. rewrite in_map_iff. intros ([n0 l0] & E & H).
  simpl in E. injection E as <- <-. eauto.
Qed.

Lemma initial_state_ok (participants : dict (option name)) (pre_assigned : dict name) :
  dict_wf participants ->
  initial_state participants pre_assigned =
  Ok (mkState (map (fun n => (n, candidates participants n)) (dict_keys participants))
              pre_assigned
              (unresolved participants pre_assigned)).
Proof.
  intros Hwf. unfold initial_state.
  rewrite (dict_comprehension_ok _ (candidates participants)).
  - reflexivity.
  - intros n Hn. destruct (dict_get_in_keys _ _ Hn) as [p Hp].
    rewrite (recipients_of_ok _ _ _ _ Hp).
    unfold candidates, partner_of. rewrite Hp. reflexivity.
  - exact Hwf.
  - intros n _ [].
Qed.

(** ** The loop invariant *)

Section Engine.

Variable participants : dict (option name).
Variable pre_assigned : dict name.
Hypothesis participants_wf : dict_wf participants.

Lemma unresolved_not_key (n : name) :
  In n (unresolved participants pre_assigned) ->
  In n (dict_keys participants) /\ ~ In n (dict_keys pre_assigned).
Proof.
  unfold unresolved. rewrite filter_In, negb_true_iff.
  unfold dict_contains. rewrite list_contains_false. tauto.
Qed.

Lemma inv_state0 : inv participants pre_assigned (state0 participants pre_assigned).
Proof.
  constructor; simpl.
  - unfold dict_keys. rewrite map_map. simpl. apply map_id.
  - intros n l H. apply in_map_iff in H. destruct H as (m & [= <- <-] & _).
    apply incl_refl.
  - intros n l x H Hx _. apply in_map_iff in H.
    destruct H as (m & [= <- <-] & _). exact Hx.
  - apply NoDup_filter. exact participants_wf.
  - intros n Hn. now apply unresolved_not_key in Hn.
  - intros n Hn. now apply unresolved_not_key in Hn.
  - reflexivity.
  - exists []. rewrite app_nil_r. repeat split; try constructor;
      destruct H.
Qed.

Lemma unassigned_in (asg : dict name) (l : list name) (x : name) :
  In x (unassigned asg l) <-> In x l /\ ~ In x (dict_values asg).
Proof.
  unfold unassigned. rewrite filter_In, negb_true_iff, list_contains_false.
  tauto.
Qed.

(** One pass through the loop body, spelled out. *)
Lemma loop_body_spec (st : state) (r : rng) :
  inv participants pre_assigned st -> all_names st <> [] ->
  exists santa l,
    choice r (all_names st) = Ok (santa, rng_next r) /\
    In santa (all_names st) /\
    dict_get (valid_assignments st) santa = Ok l /\
    ((unassigned (assignments st) l = [] /\ loop_body st r = Ok Stuck) \/
     (exists giftee,
         In giftee (unassigned (assignments st) l) /\
         loop_body st r =
         Ok (Continue (next_state st santa giftee) (rng_next (rng_next r))))).
Proof.
  intros I Hne.
  destruct (choice_nonempty r (all_names st) Hne) as (santa & Hs & Hc).
  destruct (dict_get_in_keys (valid_assignments st) santa) as [l Hl].
  { rewrite (inv_va_keys _ _ st I). now apply (inv_names_sub _ _ st I). }
  exists santa, l. repeat (split; [assumption|]).
  unfold loop_body. rewrite Hc. simpl. rewrite Hl. simpl.
  destruct (unassigned (assignments st) l) as [|c cs] eqn:Eu.
  - left. auto.
  - right.
    destruct (choice_nonempty (rng_next r) (c :: cs)) as (giftee & Hg & Hcg);
      [discriminate|].
    exists giftee. split; [assumption|].
    rewrite Hcg. simpl.
    rewrite (list_remove_in _ _ Hs). simpl.
    pose proof (remove_giftee_ok giftee [] (valid_assignments st)) as Hr.
    simpl in Hr. rewrite Hr.
    + simpl. unfold next_state.
      rewrite dict_set_fresh by now apply (inv_names_fresh _ _ st I).
      reflexivity.
    + rewrite (inv_va_keys _ _ st I). exact participants_wf.
Qed.

Lemma inv_next_state (st : state) (santa giftee : name) (l : list name) :
  inv participants pre_assigned st ->
  In santa (all_names st) ->
  dict_get (valid_assignments st) santa = Ok l ->
  In giftee (unassigned (assignments st) l) ->
  inv participants pre_assigned (next_state st santa giftee).
Proof.
  intros I Hs Hl Hg.
  apply unassigned_in in Hg. destruct Hg as [Hgl Hgv].
  apply dict_get_ok_in in Hl.
  pose proof (remove1_nodup santa _ (inv_names_nodup _ _ st I)) as [Hnd Hnin].
  constructor; simpl.
  - rewrite strike_keys. apply (inv_va_keys _ _ st I).
  - intros n l' H. apply strike_in in H. destruct H as (l0 & H0 & ->).
    eapply incl_tran; [apply remove1_incl | eapply (inv_va_sub _ _ st I); eassumption].
  - intros n l' x H Hx Hv. apply strike_in in H. destruct H as (l0 & H0 & ->).
    rewrite dict_values_app, in_app_iff in Hv. simpl in Hv.
    apply remove1_keeps.
    + eapply (inv_va_sup _ _ st I); eauto.
    + intros ->. tauto.
  - exact Hnd.
  - eapply incl_tran; [apply remove1_incl | apply (inv_names_sub _ _ st I)].
  - intros n Hn. rewrite dict_keys_app, in_app_iff. simpl.
    intros [H|[H|[]]].
    + apply (inv_names_fresh _ _ st I n); [now apply remove1_incl in Hn | assumption].
    + subst. tauto.
  - rewrite <- (inv_keys_perm _ _ st I).
    rewrite dict_keys_app, <- app_assoc. simpl.
    apply Permutation_app_head. symmetry. now apply remove1_perm.
  - destruct (inv_extra _ _ st I) as (extra & Ea & Hnde & Hex).
    exists (extra ++ [(santa, giftee)]).
    assert (Hsub : incl (dict_values extra) (dict_values (assignments st))).
    { rewrite Ea, dict_values_app. apply incl_appr, incl_refl. }
    assert (Hpre : incl (dict_values pre_assigned) (dict_values (assignments st))).
    { rewrite Ea, dict_values_app. apply incl_appl, incl_refl. }
    assert (Hkeys : incl (dict_keys pre_assigned) (dict_keys (assignments st))).
    { rewrite Ea, dict_keys_app. apply incl_appl, incl_refl. }
    split; [|split].
    + rewrite Ea. now rewrite <- app_assoc.
    + rewrite dict_values_app. simpl.
      apply NoDup_app; [assumption | repeat constructor; simpl; tauto |].
      intros x Hx [<-|[]]. auto.
    + intros g r' H. apply in_app_iff in H. destruct H as [H|[[= <- <-]|[]]].
      * now apply Hex.
      * split; [|split].
        -- intros H. apply (inv_names_fresh _ _ st I santa Hs). auto.
        -- eapply (inv_va_sub _ _ st I); eassumption.
        -- auto.
Qed.

Lemma while_loop_eq (fuel : nat) (st : state) (r : rng) :
  while_loop fuel st r =
  match all_names st with
  | [] => Returned (Some (assignments st))
  | _ :: _ =>
      match fuel with
      | 0 => OutOfFuel
      | S fuel' =>
          match loop_body st r with
          | Err e => Raised e
          | Ok Stuck => Returned None
          | Ok (Continue st' r') => while_loop fuel' st' r'
          end
      end
  end.
Proof. destruct fuel; reflexivity. Qed.

(** The loop ends within one iteration per unresolved giver, in one of
    two ways: the list of unresolved givers is empty and the mapping is
    returned, or the body gets stuck and [None] is returned. *)
Lemma while_loop_run (fuel : nat) :
  forall (st : state) (r : rng),
    inv participants pre_assigned st -> length (all_names st) <= fuel ->
    exists n st' r',
      n <= length (all_names st) /\
      after_iterations n st r = Some (st', r') /\
      inv participants pre_assigned st' /\
      ((all_names st' = [] /\
        while_loop fuel st r = Returned (Some (assignments st'))) \/
       (all_names st' <> [] /\ loop_body st' r' = Ok Stuck /\
        while_loop fuel st r = Returned None)).
Proof.
  induction fuel as [|fuel IH]; intros st r I Hlen.
  - exists 0, st, r. simpl. split; [lia|]. split; [reflexivity|].
    split; [assumption|].
    left. destruct (all_names st); [auto | simpl in Hlen; lia].
  - destruct (all_names st) as [|a names] eqn:En.
    + exists 0, st, r. simpl. rewrite En. auto 6 with arith.
    + assert (Hne : all_names st <> []) by (rewrite En; discriminate).
      destruct (loop_body_spec st r I Hne)
        as (santa & l & Hc & Hs & Hl & [[Hu Hb]|(giftee & Hg & Hb)]).
      * exists 0, st, r. rewrite while_loop_eq, En, Hb.
        split; [lia|]. split; [reflexivity|]. split; [assumption|].
        right. repeat split; congruence.
      * pose proof (inv_next_state st santa giftee l I Hs Hl Hg) as I'.
        pose proof (remove1_length santa _ Hs) as Hlen'.
        destruct (IH (next_state st santa giftee) (rng_next (rng_next r)) I')
          as (n & st' & r' & Hn & Ha & I'' & Hend).
        { simpl. rewrite <- En in Hlen. lia. }
        exists (S n), st', r'. simpl in Hn.
        split; [rewrite <- En; lia|].
        split; [simpl; rewrite En, Hb; exact Ha|].
        split; [assumption|].
        rewrite (while_loop_eq (S fuel)), En, Hb. exact Hend.
Qed.

(** A state in which the body gets stuck, however many iterations
    later, makes the loop return [None]. *)
Lemma while_loop_stuck (n : nat) :
  forall (fuel : nat) (st st' : state) (r r' : rng),
    inv participants pre_assigned st -> length (all_names st) <= fuel ->
    after_iterations n st r = Some (st', r') ->
    all_names st' <> [] ->
    loop_body st' r' = Ok Stuck ->
    while_loop fuel st r = Returned None.
Proof.
  induction n as [|n IH]; intros fuel st st' r r' I Hlen Ha Hne Hb.
  - simpl in Ha. injection Ha as <- <-.
    rewrite while_loop_eq.
    destruct (all_names st) eqn:En; [congruence|].
    destruct fuel; [simpl in Hlen; lia|]. now rewrite Hb.
  - simpl in Ha. rewrite while_loop_eq.
    destruct (all_names st) as [|a names] eqn:En; [discriminate|].
    assert (Hne0 : all_names st <> []) by (rewrite En; discriminate).
    destruct fuel; [simpl in Hlen; lia|].
    destruct (loop_body_spec st r I Hne0)
      as (santa & l & Hc & Hs & Hl & [[Hu Hb0]|(giftee & Hg & Hb0)]).
    + rewrite Hb0 in Ha. discriminate.
    + rewrite Hb0 in Ha |- *.
      pose proof (remove1_length santa _ Hs) as Hlen'.
      eapply IH; try eassumption.
      * eapply inv_next_state; eassumption.
      * simpl. rewrite <- En in Hlen. lia.
Qed.

(** The invariant holds wherever the loop gets. *)
Lemma after_iterations_inv (n : nat) :
  forall (st st' : state) (r r' : rng),
    inv participants pre_assigned st -> after_iterations n st r = Some (st', r') -> inv participants pre_assigned st'.
Proof.
  induction n as [|n IH]; intros st st' r r' I Ha; simpl in Ha.
  - now injection Ha as <- <-.
  - destruct (all_names st) as [|a names] eqn:En; [discriminate|].
    assert (Hne0 : all_names st <> []) by (rewrite En; discriminate).
    destruct (loop_body_spec st r I Hne0)
      as (santa & l & Hc & Hs & Hl & [[Hu Hb0]|(giftee & Hg & Hb0)]);
      rewrite Hb0 in Ha; [discriminate|].
    eapply IH; [|eassumption]. eapply inv_next_state; eassumption.
Qed.

(** The body is stuck exactly when the chosen giver has no available
    candidate in the sense of the specification. *)
Lemma stuck_iff_unavailable (st : state) (r : rng) (santa : name) (r1 : rng)
    (partner : option name) :
  inv participants pre_assigned st ->
  choice r (all_names st) = Ok (santa, r1) ->
  dict_get participants santa = Ok partner ->
  (loop_body st r = Ok Stuck <->
   available participants (assignments st) santa partner = []).
Proof.
  intros I Hc Hp.
  assert (Hne : all_names st <> []).
  { intros E. rewrite E in Hc. unfold choice in Hc.
    destruct (r 0 mod _); discriminate. }
  destruct (loop_body_spec st r I Hne)
    as (santa' & l & Hc' & Hs & Hl & Hcases).
  rewrite Hc in Hc'. injection Hc' as <- ->.
  assert (Eav : available participants (assignments st) santa partner =
                unassigned (assignments st) (candidates participants santa)).
  { unfold available, candidates, partner_of. now rewrite Hp. }
  rewrite Eav.
  pose proof (dict_get_ok_in _ _ _ Hl) as Hin.
  assert (Hiff : unassigned (assignments st) l = [] <->
                 unassigned (assignments st) (candidates participants santa) = []).
  { split; intros E.
    - destruct (unassigned _ (candidates _ _)) as [|x xs] eqn:Ex; [reflexivity|].
      assert (Hx : In x (unassigned (assignments st) (candidates participants santa)))
        by (rewrite Ex; now left).
      apply unassigned_in in Hx. destruct Hx as [Hx1 Hx2].
      assert (Hxl : In x (unassigned (assignments st) l)).
      { apply unassigned_in. split; [|assumption].
        eapply (inv_va_sup _ _ st I); eassumption. }
      rewrite E in Hxl. destruct Hxl.
    - destruct (unassigned _ l) as [|x xs] eqn:Ex; [reflexivity|].
      assert (Hx : In x (unassigned (assignments st) l))
        by (rewrite Ex; now left).
      apply unassigned_in in Hx. destruct Hx as [Hx1 Hx2].
      assert (Hxl : In x (unassigned (assignments st) (candidates participants santa))).
      { apply unassigned_in. split; [|assumption].
        eapply (inv_va_sub _ _ st I); eassumption. }
      rewrite E in Hxl. destruct Hxl. }
  rewrite <- Hiff.
  destruct Hcases as [[Hu Hb]|(giftee & Hg & Hb)].
  - tauto.
  - rewrite Hb. split; [discriminate|].
    intros E. rewrite E in Hg. destruct Hg.
Qed.

End Engine.

(** ** A call of the engine *)

Lemma assign_fuel_run (participants : dict (option name))
    (pre_assigned : dict name) (r : rng) (fuel : nat) :
  dict_wf participants ->
  length (unresolved participants pre_assigned) <= fuel ->
  exists n st r',
    n <= length (unresolved participants pre_assigned) /\
    reach participants pre_assigned r n = Some (st, r') /\
    inv participants pre_assigned st /\
    ((all_names st = [] /\
      assign_secret_santa_fuel fuel participants pre_assigned r =
      Returned (Some (assignments st))) \/
     (all_names st <> [] /\ loop_body st r' = Ok Stuck /\
      assign_secret_santa_fuel fuel participants pre_assigned r = Returned None)).
Proof.
  intros Hwf Hfuel.
  unfold assign_secret_santa_fuel, reach.
  rewrite (initial_state_ok _ _ Hwf).
  apply (while_loop_run participants pre_assigned Hwf fuel
           (state0 participants pre_assigned) r).
  - now apply inv_state0.
  - exact Hfuel.
Qed.

Lemma reach_inv (participants : dict (option name)) (pre_assigned : dict name)
    (r : rng) (n : nat) (st : state) (r' : rng) :
  dict_wf participants ->
  reach participants pre_assigned r n = Some (st, r') ->
  inv participants pre_assigned st.
Proof.
  intros Hwf. unfold reach. rewrite (initial_state_ok _ _ Hwf). intros H.
  eapply after_iterations_inv; [exact Hwf | | exact H].
  now apply inv_state0.
Qed.

(** A returned mapping is the [assignments] of a state that satisfies the
    invariant and has no unresolved giver left. *)
Lemma assign_returns_mapping (participants : dict (option name))
    (pre_assigned : dict name) (r : rng) (result : dict name) :
  dict_wf participants ->
  assign_secret_santa participants pre_assigned r = Returned (Some result) ->
  exists st, inv participants pre_assigned st /\ all_names st = [] /\
             assignments st = result.
Proof.
  intros Hwf Hres. unfold assign_secret_santa in Hres.
  destruct (assign_fuel_run participants pre_assigned r _ Hwf (le_n _))
    as (n & st & r' & _ & _ & I & [[He Hr]|(_ & _ & Hr)]);
    rewrite Hr in Hres; [|discriminate].
  injection Hres as <-. eauto.
Qed.

Lemma candidates_in (participants : dict (option name)) (g x : name) :
  In x (candidates participants g) ->
  In x (dict_keys participants) /\ x <> g /\
  partner_of participants g <> Some x.
Proof.
  unfold candidates, candidate_set.
  rewrite filter_In, andb_true_iff, negb_true_iff.
  intros (Hk & Hg & Hp). split; [assumption|]. split.
  - now apply String.eqb_neq.
  - intros E. rewrite E in Hp. simpl in Hp.
    now rewrite String.eqb_refl in Hp.
Qed.

(** The entries of a final state: the pre-assigned ones, and for every
    other participant a candidate of that participant. *)
Lemma final_lookup (participants : dict (option name)) (pre_assigned : dict name)
    (st : state) (G recv : name) :
  inv participants pre_assigned st ->
  dict_get (assignments st) G = Ok recv ->
  (In G (dict_keys pre_assigned) /\ dict_get pre_assigned G = Ok recv) \/
  (~ In G (dict_keys pre_assigned) /\ In recv (candidates participants G) /\
   ~ In recv (dict_values pre_assigned)).
Proof.
  intros I Hget. destruct (inv_extra _ _ st I) as (extra & Ea & _ & Hex).
  rewrite Ea, dict_get_app in Hget.
  destruct (list_contains G (dict_keys pre_assigned)) eqn:Ec.
  - apply list_contains_true in Ec. auto.
  - apply list_contains_false in Ec. right.
    apply dict_get_ok_in in Hget. now apply Hex in Hget.
Qed.

Lemma final_keys (participants : dict (option name)) (pre_assigned : dict name)
    (st : state) (G : name) :
  inv participants pre_assigned st -> all_names st = [] ->
  (In G (dict_keys (assignments st)) <->
   In G (dict_keys pre_assigned) \/
   (In G (dict_keys participants) /\ ~ In G (dict_keys pre_assigned))).
Proof.
  intros I He. pose proof (inv_keys_perm _ _ st I) as P.
  rewrite He, app_nil_r in P.
  split.
  - intros H. apply (Permutation_in _ P) in H. apply in_app_iff in H.
    destruct H as [H|H]; [now left | right; now apply unresolved_not_key].
  - intros H. apply (Permutation_in _ (Permutation_sym P)).
    apply in_app_iff. destruct H as [H|[H1 H2]]; [now left | right].
    unfold unresolved. rewrite filter_In, negb_true_iff.
    unfold dict_contains. now rewrite list_contains_false.
Qed.

Lemma trio_wf : dict_wf trio.
Proof. repeat constructor; simpl; intuition discriminate. Defined.

Lemma trio_run : assign_secret_santa trio trio_pre ones =
                 Returned (Some [("A", "B"); ("C", "A"); ("B", "C")]).
Proof. reflexivity. Defined.

(** ** The claims on the engine *)

(** C1: in a returned mapping, a giver that is not a key of
    [pre_assigned] is mapped neither to itself nor to its declared
    partner [participants[G]]; every participant that is not pre-assigned
    is such a giver. *)
Theorem engine_excludes_self_and_partner
    (participants : dict (option name)) (pre_assigned : dict name)
    (r : rng) (result : dict name) :
  dict_wf participants ->
  assign_secret_santa participants pre_assigned r = Returned (Some result) ->
  forall G, dict_contains pre_assigned G = false ->
    (In G (dict_keys participants) -> exists recv, dict_get result G = Ok recv) /\
    (forall recv, dict_get result G = Ok recv ->
       recv <> G /\
       exists partner, dict_get participants G = Ok partner /\
                       partner <> Some recv).
Proof.
  intros Hwf Hres G HG.
  destruct (assign_returns_mapping _ _ _ _ Hwf Hres) as (st & I & He & <-).
  apply list_contains_false in HG. split.
  - intros Hin. apply dict_get_in_keys.
    apply (final_keys _ _ st G I He). auto.
  - intros recv Hget.
    assert (Hk : In G (dict_keys participants)).
    { apply dict_get_ok_key in Hget.
      apply (final_keys _ _ st G I He) in Hget. tauto. }
    destruct (final_lookup _ _ st G recv I Hget) as [[H _]|(_ & Hc & _)];
      [tauto|].
    apply candidates_in in Hc. destruct Hc as (_ & Hne & Hp).
    split; [assumption|].
    destruct (dict_get_in_keys _ _ Hk) as [partner Hpartner].
    exists partner. split; [assumption|].
    unfold partner_of in Hp. now rewrite Hpartner in Hp.
Qed.

Lemma engine_excludes_self_and_partner_witness :
  dict_wf trio /\
  assign_secret_santa trio trio_pre ones =
    Returned (Some [("A", "B"); ("C", "A"); ("B", "C")]) /\
  forall G, dict_contains trio_pre G = false ->
    (In G (dict_keys trio) ->
     exists recv, dict_get [("A", "B"); ("C", "A"); ("B", "C")] G = Ok recv) /\
    (forall recv, dict_get [("A", "B"); ("C", "A"); ("B", "C")] G = Ok recv ->
       recv <> G /\
       exists partner, dict_get trio G = Ok partner /\ partner <> Some recv).
Proof.
  split; [exact trio_wf|]. split; [exact trio_run|].
  exact (engine_excludes_self_and_partner trio trio_pre ones _ trio_wf trio_run).
Defined.

(** C3: a returned mapping has every key of [pre_assigned] mapped to
    exactly [pre_assigned[G]]; the pre-assigned entries stay where they
    are, in every state the loop goes through and in the result, which
    only adds entries behind them. *)
Theorem engine_preserves_pre_assigned
    (participants : dict (option name)) (pre_assigned : dict name)
    (r : rng) (result : dict name) :
  dict_wf participants ->
  assign_secret_santa participants pre_assigned r = Returned (Some result) ->
  (forall G v, dict_get pre_assigned G = Ok v -> dict_get result G = Ok v) /\
  (exists extra, result = pre_assigned ++ extra) /\
  (forall n st r' G v,
      reach participants pre_assigned r n = Some (st, r') ->
      dict_get pre_assigned G = Ok v ->
      dict_get (assignments st) G = Ok v).
Proof.
  intros Hwf Hres.
  assert (Hkeep : forall st G v,
             inv participants pre_assigned st ->
             dict_get pre_assigned G = Ok v ->
             dict_get (assignments st) G = Ok v).
  { intros st G v I Hget.
    destruct (inv_extra _ _ st I) as (extra & Ea & _).
    rewrite Ea, dict_get_app.
    apply dict_get_ok_key in Hget as Hk.
    apply list_contains_true in Hk. now rewrite Hk. }
  destruct (assign_returns_mapping _ _ _ _ Hwf Hres) as (st & I & He & <-).
  split; [|split].
  - intros G v. now apply Hkeep.
  - destruct (inv_extra _ _ st I) as (extra & Ea & _). eauto.
  - intros n st' r' G v Hreach. apply Hkeep.
    eapply reach_inv; eassumption.
Qed.

Lemma engine_preserves_pre_assigned_witness :
  dict_wf trio /\
  assign_secret_santa trio trio_pre ones =
    Returned (Some [("A", "B"); ("C", "A"); ("B", "C")]) /\
  (forall G v, dict_get trio_pre G = Ok v ->
               dict_get [("A", "B"); ("C", "A"); ("B", "C")] G = Ok v) /\
  (exists extra, [("A", "B"); ("C", "A"); ("B", "C")] = trio_pre ++ extra) /\
  (forall n st r' G v,
      reach trio trio_pre ones n = Some (st, r') ->
      dict_get trio_pre G = Ok v ->
      dict_get (assignments st) G = Ok v).
Proof.
  split; [exact trio_wf|]. split; [exact trio_run|].
  exact (engine_preserves_pre_assigned trio trio_pre ones _ trio_wf trio_run).
Defined.

Lemma trio_pre_wf : dict_wf trio_pre.
Proof. repeat constructor; simpl; intuition discriminate. Defined.

Lemma trio_pre_keys : incl (dict_keys trio_pre) (dict_keys trio).
Proof. intros x [<-|[]]; simpl; auto. Defined.

Lemma trio_pre_values : incl (dict_values trio_pre) (dict_keys trio).
Proof. intros x [<-|[]]; simpl; auto. Defined.

Lemma trio_pre_values_distinct : NoDup (dict_values trio_pre).
Proof. repeat constructor; simpl; intuition discriminate. Defined.

Lemma dict_lengths {V : Type} (d : dict V) :
  length (dict_keys d) = length d /\ length (dict_values d) = length d.
Proof. unfold dict_keys, dict_values. now rewrite !length_map. Qed.

(** The givers of a final state are the participants, once each, when
    the pre-assigned givers are participants. *)
Lemma final_keys_perm (participants : dict (option name))
    (pre_assigned : dict name) (st : state) :
  dict_wf participants -> dict_wf pre_assigned ->
  incl (dict_keys pre_assigned) (dict_keys participants) ->
  inv participants pre_assigned st -> all_names st = [] ->
  Permutation (dict_keys (assignments st)) (dict_keys participants).
Proof.
  intros Hwf Hwfp Hk I He.
  pose proof (inv_keys_perm _ _ st I) as P.
  rewrite He, app_nil_r in P. rewrite P.
  apply NoDup_Permutation.
  - apply NoDup_app; [exact Hwfp | apply NoDup_filter; exact Hwf |].
    intros x Hx Hu. apply unresolved_not_key in Hu. tauto.
  - exact Hwf.
  - intros x. rewrite in_app_iff. split.
    + intros [H|H]; [now apply Hk | now apply unresolved_not_key in H].
    + intros H. destruct (in_dec string_dec x (dict_keys pre_assigned)) as [Hi|Hn];
        [now left | right].
      unfold unresolved. rewrite filter_In, negb_true_iff.
      unfold dict_contains. now rewrite list_contains_false.
Qed.

(** The receivers of a state are pairwise distinct participants, when the
    pre-assigned receivers are. *)
Lemma values_distinct (participants : dict (option name))
    (pre_assigned : dict name) (st : state) :
  incl (dict_values pre_assigned) (dict_keys participants) ->
  NoDup (dict_values pre_assigned) ->
  inv participants pre_assigned st ->
  NoDup (dict_values (assignments st)) /\
  incl (dict_values (assignments st)) (dict_keys participants).
Proof.
  intros Hv Hnd I.
  destruct (inv_extra _ _ st I) as (extra & Ea & Hnde & Hex).
  assert (Hin : forall x, In x (dict_values extra) ->
                          exists g, In (g, x) extra).
  { intros x Hx. apply in_map_iff in Hx. destruct Hx as ([g y] & E & H).
    simpl in E. subst. eauto. }
  rewrite Ea, dict_values_app. split.
  - apply NoDup_app; [assumption | assumption |].
    intros x Hx Hx'. destruct (Hin x Hx') as [g Hg].
    apply Hex in Hg. tauto.
  - apply incl_app; [assumption|].
    intros x Hx. destruct (Hin x Hx) as [g Hg].
    apply Hex in Hg. destruct Hg as (_ & Hc & _).
    now apply candidates_in in Hc.
Qed.

(** C2: when the keys and the values of [pre_assigned] are participants
    and its values are pairwise distinct, a returned mapping is a
    bijection on the participants: its keys are the participants, each
    once, and every participant is the receiver of exactly one entry. *)
Theorem engine_returns_bijection
    (participants : dict (option name)) (pre_assigned : dict name)
    (r : rng) (result : dict name) :
  dict_wf participants -> dict_wf pre_assigned ->
  incl (dict_keys pre_assigned) (dict_keys participants) ->
  incl (dict_values pre_assigned) (dict_keys participants) ->
  NoDup (dict_values pre_assigned) ->
  assign_secret_santa participants pre_assigned r = Returned (Some result) ->
  dict_wf result /\
  Permutation (dict_keys result) (dict_keys participants) /\
  Permutation (dict_values result) (dict_keys participants) /\
  (forall p, In p (dict_keys participants) ->
             count_occ string_dec (dict_values result) p = 1) /\
  (forall p, ~ In p (dict_keys participants) ->
             count_occ string_dec (dict_values result) p = 0).
Proof.
  intros Hwf Hwfp Hk Hv Hnd Hres.
  destruct (assign_returns_mapping _ _ _ _ Hwf Hres) as (st & I & He & <-).
  pose proof (final_keys_perm _ _ st Hwf Hwfp Hk I He) as Pk.
  destruct (values_distinct _ _ st Hv Hnd I) as [Hndv Hinclv].
  assert (Pv : Permutation (dict_values (assignments st)) (dict_keys participants)).
  { apply NoDup_Permutation_bis; [assumption | | assumption].
    apply Permutation_length in Pk.
    destruct (dict_lengths (assignments st)) as [E1 E2]. lia. }
  split; [|split; [|split; [|split]]].
  - unfold dict_wf. apply (Permutation_NoDup (Permutation_sym Pk)). exact Hwf.
  - exact Pk.
  - exact Pv.
  - intros p Hp.
    assert (Hin : In p (dict_values (assignments st)))
      by (apply (Permutation_in _ (Permutation_sym Pv)); exact Hp).
    pose proof (proj1 (NoDup_count_occ string_dec _) Hndv p) as Hle.
    apply (count_occ_In string_dec) in Hin. lia.
  - intros p Hp. apply count_occ_not_In. intros Hin. apply Hp.
    now apply (Permutation_in _ Pv).
Qed.

Lemma engine_returns_bijection_witness :
  let result := [("A", "B"); ("C", "A"); ("B", "C")] in
  assign_secret_santa trio trio_pre ones = Returned (Some result) /\
  dict_wf result /\
  Permutation (dict_keys result) (dict_keys trio) /\
  Permutation (dict_values result) (dict_keys trio) /\
  (forall p, In p (dict_keys trio) ->
             count_occ string_dec (dict_values result) p = 1) /\
  (forall p, ~ In p (dict_keys trio) ->
             count_occ string_dec (dict_values result) p = 0).
Proof.
  split; [exact trio_run|].
  exact (engine_returns_bijection trio trio_pre ones _ trio_wf trio_pre_wf
           trio_pre_keys trio_pre_values trio_pre_values_distinct trio_run).
Defined.

(** ** Termination *)

Lemma while_loop_mono (fuel : nat) :
  forall (fuel' : nat) (st : state) (r : rng) (v : option (dict name)),
    fuel <= fuel' ->
    while_loop fuel st r = Returned v ->
    while_loop fuel' st r = Returned v.
Proof.
  induction fuel as [|fuel IH]; intros fuel' st r v Hle H;
    rewrite while_loop_eq in H |- *;
    destruct (all_names st); try assumption; try discriminate.
  destruct fuel'; [lia|].
  destruct (loop_body st r) as [[|st' r']|e]; try assumption.
  apply IH; [lia | assumption].
Qed.

Lemma after_iterations_count (participants : dict (option name))
    (pre_assigned : dict name) (n : nat) :
  dict_wf participants ->
  forall (st st' : state) (r r' : rng),
    inv participants pre_assigned st ->
    after_iterations n st r = Some (st', r') ->
    n + length (all_names st') = length (all_names st).
Proof.
  intros Hwf. induction n as [|n IH]; intros st st' r r' I Ha; simpl in Ha.
  - now injection Ha as <- <-.
  - destruct (all_names st) as [|a names] eqn:En; [discriminate|].
    assert (Hne0 : all_names st <> []) by (rewrite En; discriminate).
    destruct (loop_body_spec _ _ Hwf st r I Hne0)
      as (santa & l & Hc & Hs & Hl & [[Hu Hb0]|(giftee & Hg & Hb0)]);
      rewrite Hb0 in Ha; [discriminate|].
    apply IH in Ha; [|eapply inv_next_state; eassumption].
    simpl in Ha. pose proof (remove1_length santa _ Hs) as Hlen.
    rewrite <- En. lia.
Qed.

(** C9: a call always terminates.  With one iteration per unresolved
    giver, and with any larger bound, the loop returns (a mapping or
    [None], never an exception); the call has made [n] iterations only
    when [n] of the unresolved givers are resolved; and a pass through the
    body either returns [None] or removes the chosen giver from the
    unresolved list. *)
Theorem engine_terminates
    (participants : dict (option name)) (pre_assigned : dict name) (r : rng) :
  dict_wf participants ->
  (exists v, assign_secret_santa participants pre_assigned r = Returned v /\
     forall fuel, length (unresolved participants pre_assigned) <= fuel ->
       assign_secret_santa_fuel fuel participants pre_assigned r = Returned v) /\
  (forall n st r',
      reach participants pre_assigned r n = Some (st, r') ->
      n + length (all_names st) = length (unresolved participants pre_assigned)) /\
  (forall n st r',
      reach participants pre_assigned r n = Some (st, r') ->
      all_names st <> [] ->
      loop_body st r' = Ok Stuck \/
      exists santa st' r'',
        In santa (all_names st) /\
        loop_body st r' = Ok (Continue st' r'') /\
        list_remove santa (all_names st) = Ok (all_names st') /\
        ~ In santa (all_names st') /\
        length (all_names st) = S (length (all_names st'))).
Proof.
  intros Hwf. split; [|split].
  - destruct (assign_fuel_run participants pre_assigned r _ Hwf (le_n _))
      as (n & st & r' & _ & _ & _ & Hend).
    assert (Hv : exists v, assign_secret_santa participants pre_assigned r = Returned v).
    { unfold assign_secret_santa.
      destruct Hend as [[_ H]|(_ & _ & H)]; rewrite H; eauto. }
    destruct Hv as [v Hv]. exists v. split; [assumption|].
    intros fuel Hfuel. unfold assign_secret_santa, assign_secret_santa_fuel in *.
    destruct (initial_state participants pre_assigned); [|discriminate].
    eapply while_loop_mono; eassumption.
  - intros n st r' Hreach. unfold reach in Hreach.
    rewrite (initial_state_ok _ _ Hwf) in Hreach.
    apply (after_iterations_count participants pre_assigned n Hwf) in Hreach;
      [exact Hreach | now apply inv_state0].
  - intros n st r' Hreach Hne.
    pose proof (reach_inv _ _ _ _ _ _ Hwf Hreach) as I.
    destruct (loop_body_spec _ _ Hwf st r' I Hne)
      as (santa & l & Hc & Hs & Hl & [[Hu Hb]|(giftee & Hg & Hb)]);
      [now left | right].
    exists santa, (next_state st santa giftee), (rng_next (rng_next r')).
    split; [assumption|]. split; [assumption|]. simpl.
    split; [now apply list_remove_in|].
    split; [apply remove1_nodup, (inv_names_nodup _ _ st I)|].
    now apply remove1_length.
Qed.

Lemma engine_terminates_witness :
  (exists v, assign_secret_santa trio trio_pre ones = Returned v /\
     forall fuel, length (unresolved trio trio_pre) <= fuel ->
       assign_secret_santa_fuel fuel trio trio_pre ones = Returned v) /\
  (forall n st r',
      reach trio trio_pre ones n = Some (st, r') ->
      n + length (all_names st) = length (unresolved trio trio_pre)) /\
  (forall n st r',
      reach trio trio_pre ones n = Some (st, r') ->
      all_names st <> [] ->
      loop_body st r' = Ok Stuck \/
      exists santa st' r'',
        In santa (all_names st) /\
        loop_body st r' = Ok (Continue st' r'') /\
        list_remove santa (all_names st) = Ok (all_names st') /\
        ~ In santa (all_names st') /\
        length (all_names st) = S (length (all_names st'))).
Proof. exact (engine_terminates trio trio_pre ones trio_wf). Defined.

(** ** Failure *)

Lemma stuck_state_unavailable (participants : dict (option name))
    (pre_assigned : dict name) (st : state) (r' : rng) :
  dict_wf participants ->
  inv participants pre_assigned st ->
  all_names st <> [] ->
  loop_body st r' = Ok Stuck ->
  exists santa r'' partner,
    choice r' (all_names st) = Ok (santa, r'') /\
    dict_get participants santa = Ok partner /\
    available participants (assignments st) santa partner = [].
Proof.
  intros Hwf I Hne Hb.
  destruct (choice_nonempty r' (all_names st) Hne) as (santa & Hs & Hc).
  destruct (dict_get_in_keys participants santa) as [partner Hp];
    [now apply (inv_names_sub _ _ st I)|].
  exists santa, (rng_next r'), partner.
  split; [assumption|]. split; [assumption|].
  now apply (stuck_iff_unavailable _ _ Hwf st r' santa _ partner I Hc Hp).
Qed.

(** C4: the call returns [None] exactly when, at some step, the giver
    drawn from the unresolved list has no available candidate (its
    candidate set minus the receivers in the result mapping, the
    pre-assigned ones included); and when that never happens, the loop
    reaches a state without unresolved givers and the call returns the
    mapping of that state. *)
Theorem engine_none_iff_stuck
    (participants : dict (option name)) (pre_assigned : dict name) (r : rng) :
  dict_wf participants ->
  (assign_secret_santa participants pre_assigned r = Returned None <->
   stuck_somewhere participants pre_assigned r) /\
  (~ stuck_somewhere participants pre_assigned r ->
   exists n st r',
     reach participants pre_assigned r n = Some (st, r') /\
     all_names st = [] /\
     assign_secret_santa participants pre_assigned r =
     Returned (Some (assignments st))).
Proof.
  intros Hwf.
  destruct (assign_fuel_run participants pre_assigned r _ Hwf (le_n _))
    as (n & st & r' & _ & Hreach & I & Hend).
  fold (assign_secret_santa participants pre_assigned r) in Hend.
  assert (Hback : stuck_somewhere participants pre_assigned r ->
                  assign_secret_santa participants pre_assigned r = Returned None).
  { intros (m & st1 & r1 & santa & r2 & partner & Hr & Hc & Hp & Hav).
    pose proof (reach_inv _ _ _ _ _ _ Hwf Hr) as I1.
    apply (stuck_iff_unavailable _ _ Hwf st1 r1 santa r2 partner I1 Hc Hp) in Hav.
    assert (Hne : all_names st1 <> []).
    { intros E. rewrite E in Hc. unfold choice in Hc.
      destruct (r1 0 mod _); discriminate. }
    unfold reach in Hr. rewrite (initial_state_ok _ _ Hwf) in Hr.
    unfold assign_secret_santa, assign_secret_santa_fuel.
    rewrite (initial_state_ok _ _ Hwf).
    eapply (while_loop_stuck participants pre_assigned Hwf m);
      [apply inv_state0; exact Hwf | apply le_n | exact Hr | exact Hne | exact Hav]. }
  destruct Hend as [[He Hr]|(Hne & Hb & Hr)].
  - split.
    + split; [intros H; congruence | exact Hback].
    + intros _. exists n, st, r'. auto.
  - assert (Hs : stuck_somewhere participants pre_assigned r).
    { destruct (stuck_state_unavailable _ _ st r' Hwf I Hne Hb)
        as (santa & r'' & partner & Hc & Hp & Hav).
      exists n, st, r', santa, r'', partner. auto. }
    split; [split; auto | tauto].
Qed.

Lemma engine_none_iff_stuck_witness :
  (assign_secret_santa trio trio_pre ones = Returned None <->
   stuck_somewhere trio trio_pre ones) /\
  (~ stuck_somewhere trio trio_pre ones ->
   exists n st r',
     reach trio trio_pre ones n = Some (st, r') /\
     all_names st = [] /\
     assign_secret_santa trio trio_pre ones = Returned (Some (assignments st))).
Proof. exact (engine_none_iff_stuck trio trio_pre ones trio_wf). Defined.

(** ** The empty group *)

(** C10: for no participants and no pre-assignments the feasibility check
    answers [True] and the engine returns the empty mapping, not [None];
    both have the truth value false, so the driving loop
    [while not assignment] takes the success for a failure and never
    leaves. *)
Theorem empty_group_looks_like_failure :
  is_assignment_possible [] = Ok true /\
  (forall r, assign_secret_santa [] [] r = Returned (Some [])) /\
  Some ([] : dict name) <> None /\
  truthy (Some []) = truthy None /\
  (forall fuel attempts k, retry_loop fuel [] [] attempts k = OutOfFuel).
Proof.
  split; [reflexivity|]. split; [reflexivity|]. split; [discriminate|].
  split; [reflexivity|].
  induction fuel as [|fuel IH]; intros attempts k; simpl; [reflexivity|].
  apply IH.
Qed.

(** ** Feasible for the check, infeasible for the engine *)

Lemma couple_and_single_wf : dict_wf couple_and_single.
Proof. repeat constructor; simpl; intuition discriminate. Qed.

Lemma receivers_injective (m : dict name) (a b c : name) :
  NoDup (dict_values m) -> In (a, c) m -> In (b, c) m -> a = b.
Proof.
  induction m as [|[g v] m IH]; simpl; [tauto|].
  intros Hnd Ha Hb. inversion Hnd as [|? ? Hv Hnd']; subst.
  destruct Ha as [Ha|Ha], Hb as [Hb|Hb].
  - congruence.
  - injection Ha as -> ->. exfalso. apply Hv.
    apply (in_map snd) in Hb. exact Hb.
  - injection Hb as -> ->. exfalso. apply Hv.
    apply (in_map snd) in Ha. exact Ha.
  - auto.
Qed.

Lemma key_has_entry {V : Type} (m : dict V) (k : name) :
  In k (dict_keys m) -> exists v, In (k, v) m.
Proof.
  intros H. apply in_map_iff in H. destruct H as ([k' v] & E & H).
  simpl in E. subst. eauto.
Qed.

Lemma couple_and_single_unsatisfiable (m : dict name) :
  ~ valid_assignment couple_and_single m.
Proof.
  intros (Pk & Pv & Hc).
  assert (Hnd : NoDup (dict_values m)).
  { apply (Permutation_NoDup (Permutation_sym Pv)), couple_and_single_wf. }
  assert (Hto_c : forall g partner,
             In g ["A"; "B"] ->
             dict_get couple_and_single g = Ok (Some partner) ->
             In partner ["A"; "B"] -> g <> partner ->
             In (g, "C") m).
  { intros g partner Hg Hp Hpartner Hne.
    destruct (key_has_entry m g) as [recv Hin].
    { apply (Permutation_in _ (Permutation_sym Pk)). simpl in *. tauto. }
    destruct (Hc g recv Hin) as [Hself Hpart].
    specialize (Hpart _ Hp).
    assert (Hr : In recv (dict_keys couple_and_single)).
    { apply (Permutation_in _ Pv). apply (in_map snd) in Hin. exact Hin. }
    simpl in Hr, Hg, Hpartner.
    assert (recv = "C"); [|now subst].
    destruct Hr as [<-|[<-|[<-|[]]]]; [| |reflexivity];
      exfalso; intuition (subst; congruence). }
  assert (Ha : In ("A", "C") m).
  { apply (Hto_c "A" "B"); simpl; auto; discriminate. }
  assert (Hb : In ("B", "C") m).
  { apply (Hto_c "B" "A"); simpl; auto; discriminate. }
  pose proof (receivers_injective m _ _ _ Hnd Ha Hb). discriminate.
Qed.

(** Without pre-assignments, what the engine returns is a valid
    assignment. *)
Lemma returned_valid (participants : dict (option name)) (r : rng)
    (result : dict name) :
  dict_wf participants ->
  assign_secret_santa participants [] r = Returned (Some result) ->
  valid_assignment participants result.
Proof.
  intros Hwf Hres.
  destruct (assign_returns_mapping _ _ _ _ Hwf Hres) as (st & I & He & <-).
  assert (Pk : Permutation (dict_keys (assignments st)) (dict_keys participants)).
  { apply (final_keys_perm participants []); auto.
    - constructor.
    - intros x []. }
  destruct (values_distinct participants [] st) as [Hnd Hincl]; auto.
  { intros x []. }
  { constructor. }
  split; [exact Pk|]. split.
  - apply NoDup_Permutation_bis; [assumption | | assumption].
    apply Permutation_length in Pk.
    destruct (dict_lengths (assignments st)) as [E1 E2]. lia.
  - intros g recv Hin.
    destruct (inv_extra _ _ st I) as (extra & Ea & _ & Hex).
    rewrite Ea in Hin. simpl in Hin. apply Hex in Hin.
    destruct Hin as (_ & Hcand & _). apply candidates_in in Hcand.
    destruct Hcand as (_ & Hne & Hp). split; [assumption|].
    intros partner Hget. unfold partner_of in Hp. now rewrite Hget in Hp.
Qed.

(** C6: the check is necessary, not sufficient.  For a couple and a
    single participant it answers [True], yet no total mapping meets the
    constraints, and the engine returns [None] whatever the random
    choices. *)
Theorem feasibility_check_not_sufficient :
  exists participants : dict (option name),
    dict_wf participants /\
    is_assignment_possible participants = Ok true /\
    (forall m, ~ valid_assignment participants m) /\
    (forall r, assign_secret_santa participants [] r = Returned None).
Proof.
  exists couple_and_single.
  split; [exact couple_and_single_wf|]. split; [reflexivity|].
  split; [exact couple_and_single_unsatisfiable|].
  intros r.
  destruct (assign_fuel_run couple_and_single [] r _ couple_and_single_wf (le_n _))
    as (n & st & r' & _ & _ & _ & [[_ H]|(_ & _ & H)]);
    fold (assign_secret_santa couple_and_single [] r) in H; [|exact H].
  exfalso.
  apply (couple_and_single_unsatisfiable (assignments st)).
  eapply returned_valid; [exact couple_and_single_wf | exact H].
Qed.

(** ** Scenario C *)

Lemma trio_extra (st : state) :
  inv trio trio_pre st -> all_names st = [] ->
  assignments st = [("A", "B"); ("B", "C"); ("C", "A")] \/
  assignments st = [("A", "B"); ("C", "A"); ("B", "C")].
Proof.
  intros I He.
  pose proof (inv_keys_perm _ _ st I) as P.
  destruct (inv_extra _ _ st I) as (extra & Ea & Hnd & Hex).
  rewrite He, app_nil_r, Ea, dict_keys_app in P.
  apply Permutation_app_inv_l in P. symmetry in P.
  change (unresolved trio trio_pre) with ["B"; "C"] in P.
  assert (Hb : forall x, In ("B", x) extra -> x = "A" \/ x = "C").
  { intros x Hx. apply Hex in Hx. destruct Hx as (_ & Hc & _).
    change (candidates trio "B") with ["A"; "C"] in Hc.
    simpl in Hc. intuition congruence. }
  assert (Hc : forall y, In ("C", y) extra -> y = "A").
  { intros y Hy. apply Hex in Hy. destruct Hy as (_ & Hc & Hv).
    change (candidates trio "C") with ["A"; "B"] in Hc.
    simpl in Hc, Hv. intuition congruence. }
  rewrite Ea.
  apply Permutation_length_2_inv in P.
  destruct extra as [|[k1 v1] [|[k2 v2] [|e extra]]];
    simpl in P; destruct P as [P|P]; try discriminate;
    injection P as -> ->.
  - pose proof (Hc v2 (or_intror (or_introl eq_refl))) as ->.
    destruct (Hb v1 (or_introl eq_refl)) as [->| ->]; [|now left].
    exfalso. simpl in Hnd. inversion Hnd as [|? ? Hn _]. apply Hn. now left.
  - pose proof (Hc v1 (or_introl eq_refl)) as ->.
    destruct (Hb v2 (or_intror (or_introl eq_refl))) as [->| ->]; [|now right].
    exfalso. simpl in Hnd. inversion Hnd as [|? ? Hn _]. apply Hn. now left.
Qed.

(** C7: for participants A, B, C without partners and [A] pre-assigned
    to [B], a returned mapping is {A: B, B: C, C: A}: it has the same
    entries, and every lookup gives what that mapping gives. *)
Theorem scenario_c_unique_completion (r : rng) (result : dict name) :
  assign_secret_santa trio trio_pre r = Returned (Some result) ->
  Permutation result trio_result /\
  (forall k, dict_get result k = dict_get trio_result k).
Proof.
  intros Hres.
  destruct (assign_returns_mapping _ _ _ _ trio_wf Hres) as (st & I & He & <-).
  destruct (trio_extra st I He) as [E|E]; rewrite E; unfold trio_result.
  - split; [reflexivity | reflexivity].
  - split; [apply perm_skip, perm_swap|].
    intros k. simpl.
    destruct (String.eqb_spec k "A"), (String.eqb_spec k "B"),
      (String.eqb_spec k "C"); subst; try reflexivity; discriminate.
Qed.

Lemma scenario_c_unique_completion_witness :
  assign_secret_santa trio trio_pre ones =
    Returned (Some [("A", "B"); ("C", "A"); ("B", "C")]) /\
  Permutation [("A", "B"); ("C", "A"); ("B", "C")] trio_result /\
  (forall k, dict_get [("A", "B"); ("C", "A"); ("B", "C")] k =
             dict_get trio_result k).
Proof.
  split; [exact trio_run|].
  exact (scenario_c_unique_completion ones _ trio_run).
Defined.

(** ** The store *)

Lemma update_mid (a b : Heap.heap) (x y : Heap.object) (l : nat) :
  l = length a -> Heap.update l y (a ++ x :: b) = a ++ y :: b.
Proof.
  intros ->. induction a as [|o a IH]; simpl; [reflexivity | now rewrite IH].
Qed.

Lemma load_mid (a b : Heap.heap) (x : Heap.object) (l : nat) :
  l = length a -> Heap.load l (a ++ x :: b) = (Ok x, a ++ x :: b).
Proof.
  intros ->. unfold Heap.load.
  rewrite nth_error_app2 by lia. now rewrite Nat.sub_diag.
Qed.

Lemma store_mid (a b : Heap.heap) (x y : Heap.object) (l : nat) :
  l = length a -> Heap.store l y (a ++ x :: b) = (Ok tt, a ++ y :: b).
Proof.
  intros E. unfold Heap.store.
  assert (Hlt : Nat.ltb l (length (a ++ x :: b)) = true).
  { apply Nat.ltb_lt. rewrite length_app. simpl. lia. }
  rewrite Hlt. now rewrite update_mid.
Qed.

Lemma load_dict_mid (a b : Heap.heap) (d : dict Heap.value) (l : nat) :
  l = length a ->
  Heap.load_dict l (a ++ Heap.ODict d :: b) = (Ok d, a ++ Heap.ODict d :: b).
Proof.
  intros E. unfold Heap.load_dict, Heap.hbind. now rewrite load_mid.
Qed.

Lemma load_list_mid (a b : Heap.heap) (ns : list name) (l : nat) :
  l = length a ->
  Heap.load_list l (a ++ Heap.OList ns :: b) = (Ok ns, a ++ Heap.OList ns :: b).
Proof.
  intros E. unfold Heap.load_list, Heap.hbind. now rewrite load_mid.
Qed.

Lemma load_dict_prefix (h0 rest : Heap.heap) (d : dict Heap.value) (p : nat) :
  nth_error h0 p = Some (Heap.ODict d) ->
  Heap.load_dict p (h0 ++ rest) = (Ok d, h0 ++ rest).
Proof.
  intros H. unfold Heap.load_dict, Heap.hbind, Heap.load.
  rewrite nth_error_app1 by (apply nth_error_Some; congruence).
  now rewrite H.
Qed.

(** ** Dicts of stored values *)

Lemma refs_cons (base : nat) (k : name) (ks : list name) :
  Heap.refs base (k :: ks) = (k, Heap.VRef (S base)) :: Heap.refs (S base) ks.
Proof. reflexivity. Qed.

Lemma refs_app (k1 k2 : list name) :
  forall base,
    Heap.refs base (k1 ++ k2) =
    Heap.refs base k1 ++ Heap.refs (base + length k1) k2.
Proof.
  induction k1 as [|k k1 IH]; intros base; simpl.
  - now rewrite Nat.add_0_r.
  - rewrite !refs_cons, IH. simpl. now rewrite Nat.add_succ_r.
Qed.

Lemma refs_keys (ks : list name) :
  forall base, dict_keys (Heap.refs base ks) = ks.
Proof.
  induction ks as [|k ks IH]; intros base; [reflexivity|].
  rewrite refs_cons. simpl. now rewrite IH.
Qed.

Lemma refs_snoc (base : nat) (ks : list name) (n : name) :
  Heap.refs base (ks ++ [n]) =
  Heap.refs base ks ++ [(n, Heap.VRef (S (base + length ks)))].
Proof. now rewrite refs_app. Qed.

Lemma refs_get_mid (base : nat) (kd kt : list name) (n : name) :
  ~ In n kd ->
  dict_get (Heap.refs base (kd ++ n :: kt)) n =
  Ok (Heap.VRef (S (base + length kd))).
Proof.
  intros Hn. rewrite refs_app, dict_get_app, refs_keys.
  apply list_contains_false in Hn. rewrite Hn.
  rewrite refs_cons. simpl. now rewrite String.eqb_refl.
Qed.

Lemma dict_map_get {V W : Type} (f : V -> W) (d : dict V) (k : name) :
  dict_get (Heap.dict_map f d) k =
  match dict_get d k with
  | Ok v => Ok (f v)
  | Err e => Err e
  end.
Proof.
  induction d as [|[k' v] d IH]; simpl; [reflexivity|].
  destruct (k =? k'); [reflexivity | exact IH].
Qed.

Lemma dict_map_keys {V W : Type} (f : V -> W) (d : dict V) :
  dict_keys (Heap.dict_map f d) = dict_keys d.
Proof. unfold Heap.dict_map, dict_keys. now rewrite map_map. Qed.

Lemma dict_map_values {V W : Type} (f : V -> W) (d : dict V) :
  dict_values (Heap.dict_map f d) = map f (dict_values d).
Proof. unfold Heap.dict_map, dict_values. now rewrite !map_map. Qed.

Lemma dict_map_app {V W : Type} (f : V -> W) (d1 d2 : dict V) :
  Heap.dict_map f (d1 ++ d2) = Heap.dict_map f d1 ++ Heap.dict_map f d2.
Proof. apply map_app. Qed.

Lemma values_contain_str (x : name) (vs : list name) :
  Heap.values_contain x (map Heap.VStr vs) = list_contains x vs.
Proof.
  unfold Heap.values_contain, list_contains.
  induction vs as [|v vs IH]; simpl; [reflexivity | now rewrite IH].
Qed.

Lemma filterM_ext {A : Type} (c1 c2 : A -> res bool) (l : list A) :
  (forall x, c1 x = c2 x) -> filterM c1 l = filterM c2 l.
Proof.
  intros H. induction l as [|x l IH]; simpl; [reflexivity|].
  now rewrite H, IH.
Qed.

(** The comprehension reads the same from the store as from the value. *)
Lemma heap_recipients_of (participants : dict (option name)) (h : Heap.heap)
    (p : nat) (names : list name) (santa : name) :
  Heap.load_dict p h =
    (Ok (Heap.dict_map Heap.partner_value participants), h) ->
  Heap.recipients_of p names santa h =
  (recipients_of participants names santa, h).
Proof.
  intros Hp. unfold Heap.recipients_of, Heap.hbind. rewrite Hp.
  unfold Heap.lift, recipients_of. apply f_equal2; [|reflexivity].
  apply filterM_ext. intros n.
  destruct (negb (n =? santa)); [|reflexivity].
  rewrite dict_map_get. destruct (dict_get participants santa) as [[q|]|e];
    reflexivity.
Qed.

(** ** Entering the loop, on the store *)

Lemma candidates_recipients (participants : dict (option name)) (n : name) :
  In n (dict_keys participants) ->
  recipients_of participants (dict_keys participants) n =
  Ok (candidates participants n).
Proof.
  intros Hn. destruct (dict_get_in_keys _ _ Hn) as [q Hq].
  rewrite (recipients_of_ok _ _ _ _ Hq).
  unfold candidates, partner_of. now rewrite Hq.
Qed.

Lemma heap_fill (participants : dict (option name)) (h0 : Heap.heap)
    (p : nat) (kt : list name) :
  nth_error h0 p = Some (Heap.participants_object participants) ->
  forall kd ld,
    length kd = length ld ->
    NoDup (kd ++ kt) ->
    incl kt (dict_keys participants) ->
    Heap.fill p (dict_keys participants) kt (length h0)
      (h0 ++ Heap.ODict (Heap.refs (length h0) kd) :: map Heap.OList ld) =
    (Ok tt,
     h0 ++ Heap.ODict (Heap.refs (length h0) (kd ++ kt))
        :: map Heap.OList (ld ++ map (candidates participants) kt)).
Proof.
  intros Hp. induction kt as [|n kt IH]; intros kd ld Hlen Hnd Hincl.
  - simpl. unfold Heap.ret. now rewrite !app_nil_r.
  - assert (Hn : ~ In n kd).
    { apply NoDup_remove_2 in Hnd. rewrite in_app_iff in Hnd. tauto. }
    simpl. unfold Heap.hbind at 1.
    rewrite (heap_recipients_of participants)
      by (apply load_dict_prefix; exact Hp).
    rewrite candidates_recipients by (apply Hincl; now left).
    unfold Heap.hbind at 1. unfold Heap.alloc.
    rewrite <- app_assoc. simpl app.
    unfold Heap.hbind at 1. rewrite load_dict_mid by reflexivity.
    unfold Heap.hbind at 1. rewrite store_mid by reflexivity.
    rewrite dict_set_fresh by (now rewrite refs_keys).
    replace (length (h0 ++ Heap.ODict (Heap.refs (length h0) kd)
                        :: map Heap.OList ld))
      with (S (length h0 + length kd))
      by (rewrite length_app; simpl; rewrite length_map; lia).
    rewrite <- refs_snoc.
    replace (map Heap.OList ld ++ [Heap.OList (candidates participants n)])
      with (map Heap.OList (ld ++ [candidates participants n]))
      by (now rewrite map_app).
    rewrite IH.
    + now rewrite <- !app_assoc.
    + rewrite !length_app. simpl. lia.
    + now rewrite <- app_assoc.
    + intros x Hx. apply Hincl. now right.
Qed.

Lemma state0_keys (participants : dict (option name)) (pre_assigned : dict name) :
  dict_keys (valid_assignments (state0 participants pre_assigned)) =
  dict_keys participants /\
  dict_values (valid_assignments (state0 participants pre_assigned)) =
  map (candidates participants) (dict_keys participants).
Proof.
  unfold state0, dict_keys, dict_values. simpl. rewrite !map_map. simpl.
  split; reflexivity.
Qed.

(** Lines 115-119 leave the caller's store as it is and put the local
    variables behind it. *)
Lemma heap_enter (participants : dict (option name)) (pre_assigned : dict name)
    (h0 : Heap.heap) (p q : nat) :
  dict_wf participants ->
  nth_error h0 p = Some (Heap.participants_object participants) ->
  nth_error h0 q = Some (Heap.assignments_object pre_assigned) ->
  Heap.enter p q h0 =
  (Ok (frame_of h0 (length participants)),
   shape h0 (state0 participants pre_assigned)).
Proof.
  intros Hwf Hp Hq. unfold Heap.enter.
  unfold Heap.hbind at 1.
  pose proof (load_dict_prefix h0 [] _ p Hp) as Lp. rewrite app_nil_r in Lp.
  rewrite Lp. rewrite dict_map_keys.
  unfold Heap.hbind at 1. unfold Heap.alloc.
  unfold Heap.hbind at 1.
  pose proof (heap_fill participants h0 p (dict_keys participants) Hp [] []
                eq_refl Hwf (incl_refl _)) as Hfill.
  change (h0 ++ Heap.ODict (Heap.refs (length h0) []) :: map Heap.OList [])
    with (h0 ++ [Heap.ODict []]) in Hfill.
  simpl app in Hfill. rewrite Hfill.
  unfold Heap.hbind at 1. rewrite (load_dict_prefix h0 _ _ q Hq).
  unfold Heap.hbind at 1. unfold Heap.alloc.
  unfold Heap.hbind at 1. unfold Heap.ret.
  destruct (state0_keys participants pre_assigned) as [Ek Ev].
  unfold shape, layout. rewrite Ek, Ev.
  unfold frame_of. f_equal.
  - f_equal. f_equal.
    + rewrite length_app. simpl. rewrite length_map.
      destruct (dict_lengths participants) as [E _]. rewrite length_map. lia.
    + rewrite !length_app. simpl. rewrite !length_map.
      destruct (dict_lengths participants) as [E _]. lia.
  - rewrite <- !app_assoc. simpl.
    unfold dict_contains. rewrite dict_map_keys. reflexivity.
Qed.

(** ** The loop, on the store *)

Lemma heap_split (h0 tail : Heap.heap) (R : dict Heap.value)
    (ld lt : list (list name)) (l : list name) :
  h0 ++ Heap.ODict R :: map Heap.OList (ld ++ l :: lt) ++ tail =
  (h0 ++ Heap.ODict R :: map Heap.OList ld)
    ++ Heap.OList l :: (map Heap.OList lt ++ tail).
Proof.
  rewrite map_app. simpl. rewrite <- !app_assoc. reflexivity.
Qed.

Lemma heap_remove_giftee (giftee : name) (h0 tail : Heap.heap) (kt : list name) :
  forall (kd : list name) (ld lt : list (list name)),
    length kd = length ld ->
    length kt = length lt ->
    NoDup (kd ++ kt) ->
    Heap.remove_giftee giftee kt (length h0)
      (h0 ++ Heap.ODict (Heap.refs (length h0) (kd ++ kt))
          :: map Heap.OList (ld ++ lt) ++ tail) =
    (Ok tt,
     h0 ++ Heap.ODict (Heap.refs (length h0) (kd ++ kt))
        :: map Heap.OList (ld ++ map (remove1 giftee) lt) ++ tail).
Proof.
  induction kt as [|n kt IH]; intros kd ld lt Hd Ht Hnd.
  - destruct lt; [reflexivity | discriminate].
  - destruct lt as [|l lt]; [discriminate|].
    assert (Hn : ~ In n kd).
    { apply NoDup_remove_2 in Hnd. rewrite in_app_iff in Hnd. tauto. }
    assert (Hloc : S (length h0 + length kd) =
                   length (h0 ++ Heap.ODict (Heap.refs (length h0) (kd ++ n :: kt))
                              :: map Heap.OList ld)).
    { rewrite length_app. simpl. rewrite length_map. lia. }
    assert (Hnext : forall l',
      Heap.remove_giftee giftee kt (length h0)
        ((h0 ++ Heap.ODict (Heap.refs (length h0) (kd ++ n :: kt))
             :: map Heap.OList ld)
           ++ Heap.OList l' :: (map Heap.OList lt ++ tail)) =
      (Ok tt,
       h0 ++ Heap.ODict (Heap.refs (length h0) (kd ++ n :: kt))
          :: map Heap.OList (ld ++ l' :: map (remove1 giftee) lt) ++ tail)).
    { intros l'. rewrite <- heap_split.
      replace (kd ++ n :: kt) with ((kd ++ [n]) ++ kt)
        by (now rewrite <- app_assoc).
      replace (ld ++ l' :: lt) with ((ld ++ [l']) ++ lt)
        by (now rewrite <- app_assoc).
      rewrite IH.
      - rewrite <- (app_assoc ld). reflexivity.
      - rewrite !length_app. simpl. lia.
      - simpl in Ht. lia.
      - now rewrite <- app_assoc. }
    simpl Heap.remove_giftee.
    unfold Heap.hbind at 1. rewrite load_dict_mid by reflexivity.
    unfold Heap.hbind at 1. unfold Heap.lift at 1.
    rewrite refs_get_mid by assumption.
    rewrite heap_split.
    unfold Heap.hbind at 1. rewrite load_list_mid by exact Hloc.
    destruct (list_contains giftee l) eqn:Ec.
    + apply list_contains_true in Ec.
      unfold Heap.hbind at 1. unfold Heap.lift at 1.
      rewrite (list_remove_in _ _ Ec).
      unfold Heap.hbind at 1. rewrite store_mid by exact Hloc.
      rewrite Hnext. reflexivity.
    + apply list_contains_false in Ec.
      rewrite Hnext. simpl map. now rewrite (remove1_not_in _ _ Ec).
Qed.

Lemma strike_values (giftee : name) (va : dict (list name)) :
  dict_values (strike giftee va) = map (remove1 giftee) (dict_values va).
Proof. unfold strike, dict_values. now rewrite !map_map. Qed.

Section Layout.

Variable h0 : Heap.heap.
Variable keys : list name.
Variable lists : list (list name).
Hypothesis keys_lists : length keys = length lists.

Lemma layout_load_va (asg : dict Heap.value) (names : list name) :
  Heap.load_dict (length h0) (layout h0 keys lists asg names) =
  (Ok (Heap.refs (length h0) keys), layout h0 keys lists asg names).
Proof. unfold layout. now rewrite load_dict_mid. Qed.

Lemma layout_at_asg (asg : dict Heap.value) (names : list name) :
  layout h0 keys lists asg names =
  (h0 ++ Heap.ODict (Heap.refs (length h0) keys) :: map Heap.OList lists)
    ++ Heap.ODict asg :: [Heap.OList names] /\
  length h0 + 1 + length keys =
  length (h0 ++ Heap.ODict (Heap.refs (length h0) keys) :: map Heap.OList lists).
Proof.
  unfold layout. split.
  - now rewrite <- app_assoc.
  - rewrite length_app. simpl. rewrite length_map. lia.
Qed.

Lemma layout_at_names (asg : dict Heap.value) (names : list name) :
  layout h0 keys lists asg names =
  (h0 ++ Heap.ODict (Heap.refs (length h0) keys)
      :: map Heap.OList lists ++ [Heap.ODict asg])
    ++ Heap.OList names :: [] /\
  length h0 + 2 + length keys =
  length (h0 ++ Heap.ODict (Heap.refs (length h0) keys)
             :: map Heap.OList lists ++ [Heap.ODict asg]).
Proof.
  unfold layout. split.
  - rewrite <- app_assoc. simpl. now rewrite <- app_assoc.
  - rewrite length_app. simpl. rewrite length_app, length_map. simpl. lia.
Qed.

Lemma layout_load_asg (asg : dict Heap.value) (names : list name) :
  Heap.load_dict (length h0 + 1 + length keys) (layout h0 keys lists asg names) =
  (Ok asg, layout h0 keys lists asg names).
Proof.
  destruct (layout_at_asg asg names) as [E L]. rewrite E.
  now rewrite load_dict_mid.
Qed.

Lemma layout_store_asg (asg asg' : dict Heap.value) (names : list name) :
  Heap.store (length h0 + 1 + length keys) (Heap.ODict asg')
             (layout h0 keys lists asg names) =
  (Ok tt, layout h0 keys lists asg' names).
Proof.
  destruct (layout_at_asg asg names) as [E L].
  destruct (layout_at_asg asg' names) as [E' _]. rewrite E, E'.
  now rewrite store_mid.
Qed.

Lemma layout_load_names (asg : dict Heap.value) (names : list name) :
  Heap.load_list (length h0 + 2 + length keys) (layout h0 keys lists asg names) =
  (Ok names, layout h0 keys lists asg names).
Proof.
  destruct (layout_at_names asg names) as [E L]. rewrite E.
  now rewrite load_list_mid.
Qed.

Lemma layout_store_names (asg : dict Heap.value) (names names' : list name) :
  Heap.store (length h0 + 2 + length keys) (Heap.OList names')
             (layout h0 keys lists asg names) =
  (Ok tt, layout h0 keys lists asg names').
Proof.
  destruct (layout_at_names asg names) as [E L].
  destruct (layout_at_names asg names') as [E' _]. rewrite E, E'.
  now rewrite store_mid.
Qed.

Lemma layout_remove_giftee (giftee : name) (asg : dict Heap.value)
    (names : list name) :
  NoDup keys ->
  Heap.remove_giftee giftee keys (length h0) (layout h0 keys lists asg names) =
  (Ok tt, layout h0 keys (map (remove1 giftee) lists) asg names).
Proof.
  intros Hnd. unfold layout.
  exact (heap_remove_giftee giftee h0 _ keys [] [] lists eq_refl keys_lists Hnd).
Qed.

End Layout.

Lemma layout_load_list (h0 : Heap.heap) (d1 d2 : dict (list name))
    (n : name) (l : list name) (asg : dict Heap.value) (names : list name) :
  let va := d1 ++ (n, l) :: d2 in
  Heap.load_list (S (length h0 + length (dict_keys d1)))
    (layout h0 (dict_keys va) (dict_values va) asg names) =
  (Ok l, layout h0 (dict_keys va) (dict_values va) asg names).
Proof.
  intros va. unfold layout, va. rewrite dict_values_app. simpl.
  rewrite heap_split. apply load_list_mid.
  rewrite length_app. simpl.
  destruct (dict_lengths d1) as [E1 E2]. rewrite length_map. lia.
Qed.

Lemma dict_get_split {V : Type} (d : dict V) (k : name) (v : V) :
  dict_get d k = Ok v ->
  exists d1 d2, d = d1 ++ (k, v) :: d2 /\ ~ In k (dict_keys d1).
Proof.
  induction d as [|[k' v'] d IH]; simpl; [discriminate|].
  destruct (String.eqb_spec k k') as [E|N].
  - intros [= ->]. subst. exists [], d. auto.
  - intros H. destruct (IH H) as (d1 & d2 & -> & Hn).
    exists ((k', v') :: d1), d2. split; [reflexivity|].
    simpl. intros [E|E]; [congruence | tauto].
Qed.

Lemma loop_body_continue (participants : dict (option name))
    (pre_assigned : dict name) (st : state) (r r1 r2 : rng)
    (santa giftee c : name) (l cs : list name) :
  dict_wf participants ->
  inv participants pre_assigned st ->
  In santa (all_names st) ->
  choice r (all_names st) = Ok (santa, r1) ->
  dict_get (valid_assignments st) santa = Ok l ->
  unassigned (assignments st) l = c :: cs ->
  choice r1 (c :: cs) = Ok (giftee, r2) ->
  loop_body st r = Ok (Continue (next_state st santa giftee) r2).
Proof.
  intros Hwf I Hs Hc Hl Eu Hcg.
  unfold loop_body. rewrite Hc. simpl. rewrite Hl. simpl. rewrite Eu.
  rewrite Hcg. simpl. rewrite (list_remove_in _ _ Hs). simpl.
  pose proof (remove_giftee_ok giftee [] (valid_assignments st)) as Hr.
  simpl in Hr. rewrite Hr by (rewrite (inv_va_keys _ _ st I); exact Hwf).
  simpl. unfold next_state.
  now rewrite dict_set_fresh by (apply (inv_names_fresh _ _ st I); exact Hs).
Qed.

Lemma unassigned_stored (asg : dict name) (l : list name) :
  filter (fun recipient =>
            negb (Heap.values_contain recipient
                    (dict_values (Heap.dict_map Heap.VStr asg)))) l =
  unassigned asg l.
Proof.
  unfold unassigned. apply filter_ext. intros x.
  now rewrite dict_map_values, values_contain_str.
Qed.

Lemma dict_map_set_fresh (asg : dict name) (santa giftee : name) :
  ~ In santa (dict_keys asg) ->
  dict_set (Heap.dict_map Heap.VStr asg) santa (Heap.VStr giftee) =
  Heap.dict_map Heap.VStr (asg ++ [(santa, giftee)]).
Proof.
  intros H. rewrite dict_set_fresh by (now rewrite dict_map_keys).
  now rewrite dict_map_app.
Qed.

(** One pass through the body does to the store what it does to the
    local variables. *)
Lemma heap_loop_body (participants : dict (option name))
    (pre_assigned : dict name) (h0 : Heap.heap) (st : state) (r : rng) :
  dict_wf participants ->
  inv participants pre_assigned st ->
  all_names st <> [] ->
  Heap.loop_body (frame_of h0 (length participants)) r (shape h0 st) =
  match loop_body st r with
  | Ok Stuck => (Ok Heap.Stuck, shape h0 st)
  | Ok (Continue st' r') => (Ok (Heap.Continue r'), shape h0 st')
  | Err e => (Err e, shape h0 st)
  end.
Proof.
  intros Hwf I Hne.
  destruct (loop_body_spec _ _ Hwf st r I Hne)
    as (santa & l & Hc & Hs & Hl & Hcases).
  assert (Hk : length participants = length (dict_keys (valid_assignments st))).
  { rewrite (inv_va_keys _ _ st I). now destruct (dict_lengths participants). }
  assert (Hkl : length (dict_keys (valid_assignments st)) =
                length (dict_values (valid_assignments st))).
  { destruct (dict_lengths (valid_assignments st)). congruence. }
  destruct (dict_get_split _ _ _ Hl) as (d1 & d2 & Eva & Hfresh).
  unfold Heap.loop_body, frame_of, shape. simpl.
  rewrite Hk.
  unfold Heap.hbind at 1. rewrite layout_load_names by exact Hkl.
  unfold Heap.hbind at 1. unfold Heap.lift at 1. rewrite Hc.
  unfold Heap.hbind at 1. rewrite layout_load_va.
  unfold Heap.hbind at 1. unfold Heap.lift at 1.
  rewrite Eva at 1. rewrite dict_keys_app. simpl dict_keys.
  rewrite refs_get_mid by exact Hfresh.
  unfold Heap.hbind at 1.
  rewrite Eva at 1 2. rewrite layout_load_list. rewrite <- Eva.
  unfold Heap.hbind at 1. rewrite layout_load_asg by exact Hkl.
  rewrite unassigned_stored.
  destruct (unassigned (assignments st) l) as [|c cs] eqn:Eu.
  - destruct Hcases as [[_ Hb]|(giftee & [] & _)].
    rewrite Hb. reflexivity.
  - destruct (choice_nonempty (rng_next r) (c :: cs)) as (giftee & Hg & Hcg);
      [discriminate|].
    rewrite (loop_body_continue _ _ st r _ _ santa giftee c l cs
               Hwf I Hs Hc Hl Eu Hcg).
    unfold Heap.hbind at 1. unfold Heap.lift at 1. rewrite Hcg.
    unfold Heap.hbind at 1. rewrite layout_store_asg by exact Hkl.
    unfold Heap.hbind at 1. unfold Heap.lift at 1.
    rewrite (list_remove_in _ _ Hs).
    unfold Heap.hbind at 1. rewrite layout_store_names by exact Hkl.
    unfold Heap.hbind at 1. rewrite refs_keys.
    rewrite layout_remove_giftee;
      [|exact Hkl | rewrite (inv_va_keys _ _ st I); exact Hwf].
    unfold Heap.ret, next_state. simpl.
    rewrite strike_keys, strike_values.
    now rewrite dict_map_set_fresh by (apply (inv_names_fresh _ _ st I); exact Hs).
Qed.

Lemma heap_while_loop_eq (fuel : nat) (f : Heap.frame) (r : rng) (h : Heap.heap) :
  Heap.while_loop fuel f r h =
  match Heap.load_list (Heap.all_names f) h with
  | (Err e, h') => (Heap.Raised e, h')
  | (Ok [], h') => (Heap.Returned (Some (Heap.assignments f)), h')
  | (Ok (_ :: _), h') =>
      match fuel with
      | 0 => (Heap.OutOfFuel, h')
      | S fuel' =>
          match Heap.loop_body f r h' with
          | (Err e, h'') => (Heap.Raised e, h'')
          | (Ok Heap.Stuck, h'') => (Heap.Returned None, h'')
          | (Ok (Heap.Continue r'), h'') => Heap.while_loop fuel' f r' h''
          end
      end
  end.
Proof. destruct fuel; reflexivity. Qed.

Lemma shape_assignments (participants : dict (option name))
    (pre_assigned : dict name) (h0 : Heap.heap) (st : state) :
  inv participants pre_assigned st ->
  nth_error (shape h0 st) (length h0 + 1 + length participants) =
  Some (Heap.assignments_object (assignments st)).
Proof.
  intros I. unfold shape.
  assert (Hkl : length (dict_keys (valid_assignments st)) =
                length (dict_values (valid_assignments st))).
  { destruct (dict_lengths (valid_assignments st)). congruence. }
  destruct (layout_at_asg h0 (dict_keys (valid_assignments st))
              (dict_values (valid_assignments st)) Hkl
              (Heap.dict_map Heap.VStr (assignments st)) (all_names st))
    as [E L].
  rewrite E.
  assert (Hk : length participants = length (dict_keys (valid_assignments st))).
  { rewrite (inv_va_keys _ _ st I). now destruct (dict_lengths participants). }
  rewrite Hk, L. rewrite nth_error_app2 by lia. now rewrite Nat.sub_diag.
Qed.

(** The loop on the store follows the loop on the local variables. *)
Lemma heap_while_loop (participants : dict (option name))
    (pre_assigned : dict name) (h0 : Heap.heap) (fuel : nat) :
  dict_wf participants ->
  forall (st : state) (r : rng),
    inv participants pre_assigned st ->
    exists st' hout,
      Heap.while_loop fuel (frame_of h0 (length participants)) r (shape h0 st) =
      (hout, shape h0 st') /\
      same_outcome (while_loop fuel st r) hout (shape h0 st') /\
      (forall a, hout = Heap.Returned (Some a) -> length h0 <= a).
Proof.
  intros Hwf.
  assert (Hload : forall st, inv participants pre_assigned st ->
            Heap.load_list (Heap.all_names (frame_of h0 (length participants)))
                           (shape h0 st) =
            (Ok (all_names st), shape h0 st)).
  { intros st I.
    assert (Hk : length participants = length (dict_keys (valid_assignments st)))
      by (rewrite (inv_va_keys _ _ st I); now destruct (dict_lengths participants)).
    assert (Hkl : length (dict_keys (valid_assignments st)) =
                  length (dict_values (valid_assignments st)))
      by (destruct (dict_lengths (valid_assignments st)); congruence).
    unfold frame_of, shape. simpl Heap.all_names. rewrite Hk.
    now apply layout_load_names. }
  induction fuel as [|fuel IH]; intros st r I;
    rewrite heap_while_loop_eq, while_loop_eq, (Hload st I);
    destruct (all_names st) as [|a names] eqn:En.
  - exists st, (Heap.Returned (Some (length h0 + 1 + length participants))).
    split; [reflexivity|]. split.
    + simpl. eexists. split; [reflexivity|].
      eapply shape_assignments; eassumption.
    + intros a [= <-]. lia.
  - exists st, Heap.OutOfFuel. split; [reflexivity|]. split; [reflexivity|].
    discriminate.
  - exists st, (Heap.Returned (Some (length h0 + 1 + length participants))).
    split; [reflexivity|]. split.
    + simpl. eexists. split; [reflexivity|].
      eapply shape_assignments; eassumption.
    + intros a' [= <-]. lia.
  - assert (Hne : all_names st <> []) by (rewrite En; discriminate).
    rewrite (heap_loop_body participants pre_assigned h0 st r Hwf I Hne).
    destruct (loop_body_spec _ _ Hwf st r I Hne)
      as (santa & l & Hc & Hs & Hl & [[Hu Hb]|(giftee & Hg & Hb)]);
      rewrite Hb.
    + exists st, (Heap.Returned None).
      split; [reflexivity|]. split; [reflexivity | discriminate].
    + apply IH. eapply inv_next_state; eassumption.
Qed.

(** A call on the store: the caller's objects stay as they are, and the
    outcome is that of the engine on the values of the arguments. *)
Lemma heap_call (participants : dict (option name)) (pre_assigned : dict name)
    (h : Heap.heap) (p q : nat) (r : rng) (fuel : nat) :
  dict_wf participants ->
  nth_error h p = Some (Heap.participants_object participants) ->
  nth_error h q = Some (Heap.assignments_object pre_assigned) ->
  exists fresh hout,
    Heap.assign_secret_santa fuel p q r h = (hout, h ++ fresh) /\
    same_outcome (assign_secret_santa_fuel fuel participants pre_assigned r)
                 hout (h ++ fresh) /\
    (forall a, hout = Heap.Returned (Some a) -> length h <= a).
Proof.
  intros Hwf Hp Hq.
  unfold Heap.assign_secret_santa, assign_secret_santa_fuel.
  rewrite (heap_enter participants pre_assigned h p q Hwf Hp Hq).
  rewrite (initial_state_ok _ _ Hwf).
  fold (state0 participants pre_assigned).
  destruct (heap_while_loop participants pre_assigned h fuel Hwf
              (state0 participants pre_assigned) r
              (inv_state0 participants pre_assigned Hwf))
    as (st' & hout & Hrun & Hout & Hfresh).
  rewrite Hrun. unfold shape, layout in *.
  eexists. exists hout. split; [reflexivity|]. auto.
Qed.

Lemma nth_error_extend (h fresh : Heap.heap) (l : nat) (o : Heap.object) :
  nth_error h l = Some o -> nth_error (h ++ fresh) l = Some o.
Proof.
  intros H. rewrite nth_error_app1; [assumption|].
  apply nth_error_Some. congruence.
Qed.

(** C8: a call leaves its two arguments unchanged.  Whatever the
    caller's store holds, the call only appends objects to it (the copy of
    [pre_assigned], the candidate lists, the list of unresolved givers), so
    every object of the caller, the two dicts included, is afterwards what
    it was; a returned mapping is one of the new objects; and the outcome
    is the one computed from the values of the arguments and the random
    choices alone, also for a second call on the store the first one
    left. *)
Theorem engine_leaves_inputs_unchanged
    (participants : dict (option name)) (pre_assigned : dict name)
    (h : Heap.heap) (p q : nat) (r : rng) (fuel : nat) :
  dict_wf participants ->
  nth_error h p = Some (Heap.participants_object participants) ->
  nth_error h q = Some (Heap.assignments_object pre_assigned) ->
  exists fresh hout,
    Heap.assign_secret_santa fuel p q r h = (hout, h ++ fresh) /\
    (forall l o, nth_error h l = Some o -> nth_error (h ++ fresh) l = Some o) /\
    nth_error (h ++ fresh) p = Some (Heap.participants_object participants) /\
    nth_error (h ++ fresh) q = Some (Heap.assignments_object pre_assigned) /\
    same_outcome (assign_secret_santa_fuel fuel participants pre_assigned r)
                 hout (h ++ fresh) /\
    (forall a, hout = Heap.Returned (Some a) -> length h <= a) /\
    (forall fuel2 r2, exists fresh2 hout2,
        Heap.assign_secret_santa fuel2 p q r2 (h ++ fresh) =
        (hout2, (h ++ fresh) ++ fresh2) /\
        same_outcome (assign_secret_santa_fuel fuel2 participants pre_assigned r2)
                     hout2 ((h ++ fresh) ++ fresh2)).
Proof.
  intros Hwf Hp Hq.
  destruct (heap_call participants pre_assigned h p q r fuel Hwf Hp Hq)
    as (fresh & hout & Hrun & Hout & Hfresh).
  exists fresh, hout.
  pose proof (nth_error_extend h fresh p _ Hp) as Hp'.
  pose proof (nth_error_extend h fresh q _ Hq) as Hq'.
  repeat (split; [first [assumption | intros; now apply nth_error_extend]|]).
  intros fuel2 r2.
  destruct (heap_call participants pre_assigned (h ++ fresh) p q r2 fuel2
              Hwf Hp' Hq') as (fresh2 & hout2 & Hrun2 & Hout2 & _).
  eauto.
Qed.

Lemma engine_leaves_inputs_unchanged_witness :
  let h := [Heap.participants_object trio; Heap.assignments_object trio_pre] in
  exists fresh hout,
    Heap.assign_secret_santa 2 0 1 ones h = (hout, h ++ fresh) /\
    (forall l o, nth_error h l = Some o -> nth_error (h ++ fresh) l = Some o) /\
    nth_error (h ++ fresh) 0 = Some (Heap.participants_object trio) /\
    nth_error (h ++ fresh) 1 = Some (Heap.assignments_object trio_pre) /\
    same_outcome (assign_secret_santa_fuel 2 trio trio_pre ones)
                 hout (h ++ fresh) /\
    (forall a, hout = Heap.Returned (Some a) -> length h <= a) /\
    (forall fuel2 r2, exists fresh2 hout2,
        Heap.assign_secret_santa fuel2 0 1 r2 (h ++ fresh) =
        (hout2, (h ++ fresh) ++ fresh2) /\
        same_outcome (assign_secret_santa_fuel fuel2 trio trio_pre r2)
                     hout2 ((h ++ fresh) ++ fresh2)).
Proof.
  exact (engine_leaves_inputs_unchanged trio trio_pre
           [Heap.participants_object trio; Heap.assignments_object trio_pre]
           0 1 ones 2 trio_wf eq_refl eq_refl).
Defined.

(** * Further properties of the check and of the engine *)

Lemma candidate_set_in (participants : dict (option name)) (P x : name)
    (partner : option name) :
  In x (candidate_set participants P partner) <->
  In x (dict_keys participants) /\ x <> P /\ partner <> Some x.
Proof.
  unfold candidate_set.
  rewrite filter_In, andb_true_iff, negb_true_iff, String.eqb_neq.
  assert (Hp : ne_partner x partner = true <-> partner <> Some x).
  { destruct partner as [q|]; simpl.
    - rewrite negb_true_iff, String.eqb_neq. split; congruence.
    - split; [discriminate | reflexivity]. }
  rewrite Hp. tauto.
Qed.

Lemma check_true_when_candidates (participants : dict (option name)) :
  (forall P partner, dict_get participants P = Ok partner ->
                     exists x, In x (candidate_set participants P partner)) ->
  is_assignment_possible participants = Ok true.
Proof.
  intros Hc. unfold is_assignment_possible.
  destruct (check_santas_total participants (dict_keys participants)
              (incl_refl _)) as [[|] Hb]; [exact Hb|].
  apply (check_santas_false participants _ (incl_refl _)) in Hb.
  destruct Hb as (P & partner & _ & Hp & He).
  destruct (Hc P partner Hp) as [x Hx]. rewrite He in Hx. destruct Hx.
Qed.

(** The check never rejects a configuration that has a valid assignment:
    it is a necessary condition, as its docstring says. *)
Theorem check_accepts_satisfiable (participants : dict (option name))
    (m : dict name) :
  valid_assignment participants m ->
  is_assignment_possible participants = Ok true.
Proof.
  intros (Pk & Pv & Hm). apply check_true_when_candidates.
  intros P partner Hp.
  destruct (key_has_entry m P) as [recv Hin].
  { apply (Permutation_in _ (Permutation_sym Pk)).
    eapply dict_get_ok_key; eassumption. }
  exists recv. apply candidate_set_in.
  destruct (Hm P recv Hin) as [Hne Hpart].
  split; [|split].
  - apply (Permutation_in _ Pv). apply (in_map snd) in Hin. exact Hin.
  - exact Hne.
  - now apply Hpart.
Qed.

Lemma trio_result_valid : valid_assignment trio trio_result.
Proof.
  split; [reflexivity|]. split.
  - simpl. apply Permutation_sym.
    apply (Permutation_cons_app ["B"; "C"] [] "A"). reflexivity.
  - intros g recv [[= <- <-]|[[= <- <-]|[[= <- <-]|[]]]];
      (split; [discriminate | intros partner [= <-]; discriminate]).
Defined.

Lemma check_accepts_satisfiable_witness :
  valid_assignment trio trio_result /\ is_assignment_possible trio = Ok true.
Proof.
  split; [exact trio_result_valid|].
  exact (check_accepts_satisfiable trio trio_result trio_result_valid).
Defined.

(** Three distinct names always leave one that is neither a given name
    nor a given partner. *)
Lemma third_name (keys : list name) (P : name) (partner : option name) :
  NoDup keys -> 3 <= length keys ->
  exists x, In x keys /\ x <> P /\ partner <> Some x.
Proof.
  intros Hnd Hlen.
  destruct keys as [|k1 [|k2 [|k3 rest]]]; simpl in Hlen; try lia.
  inversion Hnd as [|? ? H1 Hnd1]; subst.
  inversion Hnd1 as [|? ? H2 Hnd2]; subst.
  simpl in H1, H2.
  assert (D12 : k1 <> k2) by (intros E; apply H1; auto).
  assert (D13 : k1 <> k3) by (intros E; apply H1; auto).
  assert (D23 : k2 <> k3) by (intros E; apply H2; auto).
  assert (Hok : forall k, k <> P -> partner <> Some k \/ partner = Some k)
    by (intros k _; destruct partner as [q|];
        [destruct (string_dec q k); [right | left]; congruence
        | left; discriminate]).
  destruct (string_dec k1 P) as [E1|N1].
  - subst P.
    destruct (Hok k2 (not_eq_sym D12)) as [G|G].
    + exists k2. simpl. auto.
    + exists k3. simpl. split; [auto|]. split; [auto|]. congruence.
  - destruct (Hok k1 N1) as [G|G].
    + exists k1. simpl. auto.
    + destruct (string_dec k2 P) as [E2|N2].
      * exists k3. simpl. split; [auto|].
        split; [congruence | congruence].
      * exists k2. simpl. split; [auto|]. split; [auto | congruence].
Qed.

(** The check by group size: one participant alone always fails it, and
    a group of three or more always passes, whatever the partners. *)
Theorem check_by_group_size (participants : dict (option name)) :
  dict_wf participants ->
  (length participants = 1 -> is_assignment_possible participants = Ok false) /\
  (3 <= length participants -> is_assignment_possible participants = Ok true).
Proof.
  intros Hwf. split.
  - intros Hlen. destruct participants as [|[n p] [|e rest]]; try discriminate.
    unfold is_assignment_possible, check_santas, recipients_of. simpl.
    rewrite String.eqb_refl. reflexivity.
  - intros Hlen. apply check_true_when_candidates.
    intros P partner _.
    destruct (third_name (dict_keys participants) P partner Hwf) as (x & Hx).
    { now destruct (dict_lengths participants) as [-> _]. }
    exists x. now apply candidate_set_in.
Qed.

Lemma check_by_group_size_witness :
  (length trio = 1 -> is_assignment_possible trio = Ok false) /\
  (3 <= length trio -> is_assignment_possible trio = Ok true).
Proof. exact (check_by_group_size trio trio_wf). Defined.

(** The entries the engine adds: one for every unresolved giver, with
    receivers that are participants, pairwise distinct and different from
    every pre-assigned receiver.  Nothing is asked of [pre_assigned]: it
    may repeat receivers or name people who do not take part. *)
Theorem engine_entries_distinct
    (participants : dict (option name)) (pre_assigned : dict name)
    (r : rng) (result : dict name) :
  dict_wf participants ->
  assign_secret_santa participants pre_assigned r = Returned (Some result) ->
  exists extra,
    result = pre_assigned ++ extra /\
    Permutation (dict_keys extra) (unresolved participants pre_assigned) /\
    NoDup (dict_values extra) /\
    forall x, In x (dict_values extra) ->
              In x (dict_keys participants) /\ ~ In x (dict_values pre_assigned).
Proof.
  intros Hwf Hres.
  destruct (assign_returns_mapping _ _ _ _ Hwf Hres) as (st & I & He & <-).
  destruct (inv_extra _ _ st I) as (extra & Ea & Hnd & Hex).
  exists extra. split; [exact Ea|]. split; [|split; [exact Hnd|]].
  - pose proof (inv_keys_perm _ _ st I) as P.
    rewrite He, app_nil_r, Ea, dict_keys_app in P.
    now apply Permutation_app_inv_l in P.
  - intros x Hx. apply in_map_iff in Hx. destruct Hx as ([g y] & E & Hin).
    simpl in E. subst y. apply Hex in Hin. destruct Hin as (_ & Hc & Hv).
    apply candidates_in in Hc. tauto.
Qed.

Lemma engine_entries_distinct_witness :
  exists extra,
    [("A", "B"); ("C", "A"); ("B", "C")] = trio_pre ++ extra /\
    Permutation (dict_keys extra) (unresolved trio trio_pre) /\
    NoDup (dict_values extra) /\
    forall x, In x (dict_values extra) ->
              In x (dict_keys trio) /\ ~ In x (dict_values trio_pre).
Proof.
  exact (engine_entries_distinct trio trio_pre ones _ trio_wf trio_run).
Defined.

(** The driving loop of the main program hands on the first mapping that
    is not empty: every earlier attempt gave [None] or the empty dict, and
    the loop never ends with [None].  Without pre-assignments what it
    hands on is a valid assignment. *)
Theorem retry_loop_first_success
    (participants : dict (option name)) (pre_assigned : dict name)
    (attempts : nat -> rng) (fuel : nat) :
  forall (k : nat) (v : option (dict name)),
    retry_loop fuel participants pre_assigned attempts k = Returned v ->
    exists j m,
      v = Some m /\ m <> [] /\ k <= j < k + fuel /\
      assign_secret_santa participants pre_assigned (attempts j) =
        Returned (Some m) /\
      (forall i, k <= i < j ->
         exists v', assign_secret_santa participants pre_assigned (attempts i) =
                      Returned v' /\ truthy v' = false) /\
      (dict_wf participants -> pre_assigned = [] ->
       valid_assignment participants m).
Proof.
  induction fuel as [|fuel IH]; intros k v H; simpl in H; [discriminate|].
  destruct (assign_secret_santa participants pre_assigned (attempts k))
    as [v0| |] eqn:Ek; try discriminate.
  destruct (truthy v0) eqn:Et.
  - injection H as <-. destruct v0 as [[|e m]|]; try discriminate.
    exists k, (e :: m). split; [reflexivity|]. split; [discriminate|].
    split; [lia|]. split; [exact Ek|]. split; [intros i Hi; lia|].
    intros Hwf ->. eapply returned_valid; eassumption.
  - destruct (IH (S k) v H) as (j & m & Hv & Hm & Hj & Hr & Hbefore & Hvalid).
    exists j, m. split; [exact Hv|]. split; [exact Hm|]. split; [lia|].
    split; [exact Hr|]. split; [|exact Hvalid].
    intros i Hi. destruct (Nat.eq_dec i k) as [->|Hne].
    + exists v0. auto.
    + apply Hbefore. lia.
Qed.

Lemma retry_loop_first_success_witness :
  retry_loop 1 trio trio_pre (fun _ => ones) 0 =
    Returned (Some [("A", "B"); ("C", "A"); ("B", "C")]) /\
  exists j m,
    Some [("A", "B"); ("C", "A"); ("B", "C")] = Some m /\ m <> [] /\
    0 <= j < 0 + 1 /\
    assign_secret_santa trio trio_pre ones = Returned (Some m) /\
    (forall i, 0 <= i < j ->
       exists v', assign_secret_santa trio trio_pre ones = Returned v' /\
                  truthy v' = false) /\
    (dict_wf trio -> trio_pre = [] -> valid_assignment trio m).
Proof.
  split; [reflexivity|].
  exact (retry_loop_first_success trio trio_pre (fun _ => ones) 1 0 _ eq_refl).
Defined.

Lemma choice_in {A : Type} (r r' : rng) (seq : list A) (x : A) :
  choice r seq = Ok (x, r') -> In x seq.
Proof.
  unfold choice. destruct (nth_error seq (r 0 mod length seq)) eqn:E;
    [|discriminate].
  intros [= <- _]. eapply nth_error_In; eassumption.
Qed.

Lemma value_has_entry {V : Type} (m : dict V) (v : V) :
  In v (dict_values m) -> exists k, In (k, v) m.
Proof.
  intros H. apply in_map_iff in H. destruct H as ([k v'] & E & H).
  simpl in E. subst. eauto.
Qed.

(** Two participants who are not partners, without pre-assignments: the
    engine never gets stuck and always returns the exchange, whatever the
    random choices. *)
Theorem two_participants_exchange (a b : name) (r : rng) :
  a <> b ->
  exists m,
    assign_secret_santa [(a, None); (b, None)] [] r = Returned (Some m) /\
    Permutation m [(a, b); (b, a)].
Proof.
  intros Hab. set (ps := [(a, None); (b, None)] : dict (option name)).
  assert (Hwf : dict_wf ps).
  { repeat constructor; simpl; intuition congruence. }
  assert (Hun : unresolved ps [] = [a; b]) by reflexivity.
  assert (Hcand : forall g x, In x (candidates ps g) ->
                              (g = a -> x = b) /\ (g = b -> x = a)).
  { intros g x Hx. apply candidates_in in Hx. destruct Hx as (Hk & Hne & _).
    simpl in Hk. intuition congruence. }
  destruct (assign_fuel_run ps [] r _ Hwf (le_n _))
    as (n & st & r' & _ & _ & I & [[He H]|(Hne & Hb & _)]).
  - fold (assign_secret_santa ps [] r) in H.
    exists (assignments st). split; [exact H|].
    pose proof (inv_keys_perm _ _ st I) as P.
    destruct (inv_extra _ _ st I) as (extra & Ea & _ & Hex).
    simpl in Ea. rewrite He, app_nil_r, Hun in P. simpl in P.
    rewrite Ea in P |- *. symmetry in P.
    apply Permutation_length_2_inv in P.
    destruct extra as [|[k1 v1] [|[k2 v2] [|e extra]]];
      simpl in P; destruct P as [P|P]; try discriminate;
      injection P as -> ->.
    + destruct (Hex a v1 (or_introl eq_refl)) as (_ & H1 & _).
      destruct (Hex b v2 (or_intror (or_introl eq_refl))) as (_ & H2 & _).
      apply Hcand in H1, H2.
      rewrite (proj1 H1 eq_refl), (proj2 H2 eq_refl). reflexivity.
    + destruct (Hex b v1 (or_introl eq_refl)) as (_ & H1 & _).
      destruct (Hex a v2 (or_intror (or_introl eq_refl))) as (_ & H2 & _).
      apply Hcand in H1, H2.
      rewrite (proj2 H1 eq_refl), (proj1 H2 eq_refl). apply perm_swap.
  - exfalso.
    destruct (stuck_state_unavailable ps [] st r' Hwf I Hne Hb)
      as (santa & r'' & partner & Hc & Hp & Hav).
    apply choice_in in Hc.
    assert (Hother : exists o, In o (candidate_set ps santa partner)).
    { pose proof (inv_names_sub _ _ st I santa Hc) as Hk.
      assert (partner = None).
      { simpl in Hk, Hp. destruct Hk as [<-|[<-|[]]].
        - rewrite String.eqb_refl in Hp. congruence.
        - destruct (String.eqb_spec b a);
            [|rewrite String.eqb_refl in Hp]; congruence. }
      subst partner. simpl in Hk. destruct Hk as [<-|[<-|[]]].
      - exists b. apply candidate_set_in. simpl.
        split; [auto|]. split; [congruence | discriminate].
      - exists a. apply candidate_set_in. simpl.
        split; [auto|]. split; [congruence | discriminate]. }
    destruct Hother as [o Ho].
    assert (Hused : In o (dict_values (assignments st))).
    { destruct (in_dec string_dec o (dict_values (assignments st))) as [Hi|Hn];
        [exact Hi|].
      exfalso. unfold available in Hav.
      assert (Hin : In o (filter
                 (fun c => negb (list_contains c (dict_values (assignments st))))
                 (candidate_set ps santa partner))).
      { apply filter_In. split; [exact Ho|].
        apply negb_true_iff. now apply list_contains_false. }
      rewrite Hav in Hin. destruct Hin. }
    destruct (value_has_entry _ _ Hused) as [g Hg].
    destruct (inv_extra _ _ st I) as (extra & Ea & _ & Hex).
    simpl in Ea. rewrite Ea in Hg.
    destruct (Hex g o Hg) as (_ & Hgo & _).
    apply candidates_in in Hgo. destruct Hgo as (_ & Hog & _).
    apply candidate_set_in in Ho. destruct Ho as (Hok & Hos & _).
    assert (Hgk : In g (dict_keys (assignments st))).
    { rewrite Ea. apply (in_map fst) in Hg. exact Hg. }
    assert (Hg2 : In g [a; b]).
    { rewrite <- Hun. apply (Permutation_in g (inv_keys_perm _ _ st I)).
      apply in_app_iff. now left. }
    pose proof (inv_names_sub _ _ st I santa Hc) as Hsk.
    assert (g = santa).
    { simpl in Hg2, Hsk, Hok. intuition congruence. }
    subst g. apply (inv_names_fresh _ _ st I santa Hc Hgk).
Qed.

Lemma two_participants_exchange_witness :
  exists m,
    assign_secret_santa [("Alice", None); ("Bob", None)] [] ones =
      Returned (Some m) /\
    Permutation m [("Alice", "Bob"); ("Bob", "Alice")].
Proof.
  apply (two_participants_exchange "Alice" "Bob" ones). discriminate.
Defined.

(** * Properties of the console layer *)

(** ** Sequencing and loops *)

Lemma io_bind_ret {A B : Type} (c : Console.io A) (k : A -> Console.io B)
    (ins ins' ins'' : list string) (a : A) (r : Console.io_result B)
    (out out' : list Console.event) :
  c ins = (Console.Ret a, ins', out) ->
  k a ins' = (r, ins'', out') ->
  Console.io_bind c k ins = (r, ins'', out ++ out').
Proof. intros Hc Hk. unfold Console.io_bind. now rewrite Hc, Hk. Qed.

Lemma io_bind_exc {A B : Type} (c : Console.io A) (k : A -> Console.io B)
    (ins ins' : list string) (e : Console.io_exn) (out : list Console.event) :
  c ins = (Console.Exc e, ins', out) ->
  Console.io_bind c k ins = (Console.Exc e, ins', out).
Proof. intros Hc. unfold Console.io_bind. now rewrite Hc. Qed.

Lemma io_bind_ret_inv {A B : Type} (c : Console.io A) (k : A -> Console.io B)
    (ins ins'' : list string) (b : B) (out : list Console.event) :
  Console.io_bind c k ins = (Console.Ret b, ins'', out) ->
  exists a ins' out1 out2,
    c ins = (Console.Ret a, ins', out1) /\
    k a ins' = (Console.Ret b, ins'', out2) /\
    out = out1 ++ out2.
Proof.
  unfold Console.io_bind.
  destruct (c ins) as [[[a| e |] ins'] out1]; try discriminate.
  destruct (k a ins') as [[r ins3] out2] eqn:Ek.
  intros [= -> -> <-]. exists a, ins', out1, out2. auto.
Qed.

Lemma loop_unfold {S A : Type} (fuel : nat)
    (body : S -> Console.io (S + A)) (s : S) :
  Console.loop (Datatypes.S fuel) body s =
  Console.io_bind (body s)
    (fun r => match r with
              | inl s' => Console.loop fuel body s'
              | inr a => Console.ret a
              end).
Proof. reflexivity. Qed.

(** What holds when a loop is entered and is kept by every pass holds of
    what the loop returns. *)
Lemma loop_invariant {S A : Type} (P : S -> Prop) (Q : A -> Prop)
    (body : S -> Console.io (S + A)) :
  (forall s ins r ins' out,
      P s -> body s ins = (Console.Ret r, ins', out) ->
      match r with inl s' => P s' | inr a => Q a end) ->
  forall fuel s ins a ins' out,
    P s -> Console.loop fuel body s ins = (Console.Ret a, ins', out) -> Q a.
Proof.
  intros Hbody. induction fuel as [|fuel IH]; intros s ins a ins' out Hs H.
  - discriminate.
  - rewrite loop_unfold in H. apply io_bind_ret_inv in H.
    destruct H as ([s'|a'] & ins1 & o1 & o2 & Hb & Hk & _).
    + eapply IH; [|exact Hk]. exact (Hbody _ _ _ _ _ Hs Hb).
    + injection Hk as <- _ _. exact (Hbody _ _ _ _ _ Hs Hb).
Qed.

Lemma while_true_invariant {S A : Type} (P : S -> Prop) (Q : A -> Prop)
    (body : S -> Console.io (S + A)) :
  (forall s ins r ins' out,
      P s -> body s ins = (Console.Ret r, ins', out) ->
      match r with inl s' => P s' | inr a => Q a end) ->
  forall s ins a ins' out,
    P s -> Console.while_true body s ins = (Console.Ret a, ins', out) -> Q a.
Proof.
  intros Hbody s ins a ins' out Hs H. unfold Console.while_true in H.
  eapply loop_invariant; eassumption.
Qed.

(** ** Yes or no *)

Section YesNo.

Variable strip : string -> string.
Variable lower : string -> string.
Variable prompt : string.

Lemma yes_no_body_step (line : string) (rest : list string) :
  Console.get_yes_or_no_input_body strip lower prompt tt (line :: rest) =
  match Console.yes_no strip lower line with
  | Some v => (Console.Ret (inr v), rest, [Console.Prompted prompt])
  | None =>
      (Console.Ret (inl tt), rest,
       [Console.Prompted prompt;
        Console.Printed "Invalid response. Please answer with 'yes', 'no', 'y', or 'n'."])
  end.
Proof.
  unfold Console.get_yes_or_no_input_body, Console.io_bind, Console.input,
    Console.yes_no. cbv zeta.
  destruct (list_contains (lower (strip line)) ["yes"; "y"]); [reflexivity|].
  destruct (list_contains (lower (strip line)) ["no"; "n"]); reflexivity.
Qed.

Lemma yes_no_loop_answer (bad : list string) :
  forall fuel good rest v,
    length bad < fuel ->
    Forall (fun l => Console.yes_no strip lower l = None) bad ->
    Console.yes_no strip lower good = Some v ->
    Console.loop fuel (Console.get_yes_or_no_input_body strip lower prompt) tt
                 (bad ++ good :: rest) =
    (Console.Ret v, rest, Console.rejected prompt bad ++ [Console.Prompted prompt]).
Proof.
  induction bad as [|l bad IH]; intros fuel good rest v Hfuel Hbad Hgood;
    (destruct fuel as [|fuel]; [simpl in Hfuel; lia|]);
    rewrite loop_unfold; simpl app.
  - unfold Console.io_bind. rewrite yes_no_body_step, Hgood. reflexivity.
  - inversion Hbad as [|? ? Hl Hbad']; subst.
    unfold Console.io_bind. rewrite yes_no_body_step, Hl.
    rewrite (IH fuel good rest v); [reflexivity | | assumption | assumption].
    simpl in Hfuel. lia.
Qed.

Lemma yes_no_loop_eof (bad : list string) :
  forall fuel,
    length bad < fuel ->
    Forall (fun l => Console.yes_no strip lower l = None) bad ->
    Console.loop fuel (Console.get_yes_or_no_input_body strip lower prompt) tt bad =
    (Console.Exc Console.EOFError, [],
     Console.rejected prompt bad ++ [Console.Prompted prompt]).
Proof.
  induction bad as [|l bad IH]; intros fuel Hfuel Hbad;
    (destruct fuel as [|fuel]; [simpl in Hfuel; lia|]);
    rewrite loop_unfold.
  - reflexivity.
  - inversion Hbad as [|? ? Hl Hbad']; subst.
    unfold Console.io_bind. rewrite yes_no_body_step, Hl.
    rewrite (IH fuel); [reflexivity | | assumption].
    simpl in Hfuel. lia.
Qed.

Lemma yes_no_at_once (good : string) (rest : list string) (v : bool) :
  Console.yes_no strip lower good = Some v ->
  Console.get_yes_or_no_input strip lower prompt (good :: rest) =
  (Console.Ret v, rest, [Console.Prompted prompt]).
Proof.
  intros Hgood. unfold Console.get_yes_or_no_input, Console.while_true.
  apply (yes_no_loop_answer [] _ good rest v); [simpl; lia | constructor | exact Hgood].
Qed.

(** [get_yes_or_no_input] returns what the first line that is an answer
    says ([True] for yes or y, [False] for no or n, after [strip] and
    [lower]); it reads no further, and every line before that costs one
    complaint and one more prompt. *)
Theorem get_yes_or_no_input_first_answer
    (bad : list string) (good : string) (rest : list string) (v : bool) :
  Forall (fun l => Console.yes_no strip lower l = None) bad ->
  Console.yes_no strip lower good = Some v ->
  Console.get_yes_or_no_input strip lower prompt (bad ++ good :: rest) =
  (Console.Ret v, rest, Console.rejected prompt bad ++ [Console.Prompted prompt]).
Proof.
  intros Hbad Hgood. unfold Console.get_yes_or_no_input, Console.while_true.
  apply yes_no_loop_answer; [|assumption|assumption].
  rewrite length_app. simpl. lia.
Qed.

(** When no line of the input is an answer, [get_yes_or_no_input] asks
    once per line and once more, and ends with [EOFError]. *)
Theorem get_yes_or_no_input_no_answer (lines : list string) :
  Forall (fun l => Console.yes_no strip lower l = None) lines ->
  Console.get_yes_or_no_input strip lower prompt lines =
  (Console.Exc Console.EOFError, [],
   Console.rejected prompt lines ++ [Console.Prompted prompt]).
Proof.
  intros Hbad. unfold Console.get_yes_or_no_input, Console.while_true.
  apply yes_no_loop_eof; [lia | assumption].
Qed.

End YesNo.

Lemma get_yes_or_no_input_first_answer_witness :
  Console.get_yes_or_no_input Console.ascii_strip Console.ascii_lower "ok? "
    (["maybe"; "YES!"] ++ " Yes " :: ["next"]) =
  (Console.Ret true, ["next"],
   Console.rejected "ok? " ["maybe"; "YES!"] ++ [Console.Prompted "ok? "]).
Proof.
  apply (get_yes_or_no_input_first_answer Console.ascii_strip Console.ascii_lower
           "ok? " ["maybe"; "YES!"] " Yes " ["next"] true).
  - repeat constructor.
  - reflexivity.
Defined.

Lemma get_yes_or_no_input_no_answer_witness :
  Console.get_yes_or_no_input Console.ascii_strip Console.ascii_lower "ok? "
    ["maybe"; ""] =
  (Console.Exc Console.EOFError, [],
   Console.rejected "ok? " ["maybe"; ""] ++ [Console.Prompted "ok? "]).
Proof.
  apply (get_yes_or_no_input_no_answer Console.ascii_strip Console.ascii_lower
           "ok? " ["maybe"; ""]).
  repeat constructor.
Defined.

(** ** Revealing the assignments *)

Section Reveal.

Variable strip : string -> string.
Variable lower : string -> string.

Lemma reveal_each_all (assignment : dict name) (todo : dict name) :
  forall (done : dict name) (used rest : list string),
    assignment = done ++ todo ->
    dict_wf assignment ->
    length used = 2 * length todo ->
    Console.reveal_each assignment (dict_keys todo) (used ++ rest) =
    (Console.Ret tt, rest, flat_map Console.reveal_block todo).
Proof.
  induction todo as [|[k v] todo IH]; intros done used rest Ea Hwf Hlen.
  - destruct used; [reflexivity | discriminate].
  - destruct used as [|l1 [|l2 used]]; try (simpl in Hlen; lia).
    assert (Hget : dict_get assignment k = Ok v).
    { rewrite Ea. apply dict_get_middle.
      unfold dict_wf in Hwf. rewrite Ea, dict_keys_app in Hwf. simpl in Hwf.
      apply NoDup_remove_2 in Hwf. rewrite in_app_iff in Hwf. tauto. }
    simpl Console.reveal_each. unfold Console.io_bind at 1. simpl.
    unfold Console.io_bind at 1. rewrite Hget. simpl.
    unfold Console.io_bind at 1. simpl.
    unfold Console.io_bind at 1. simpl.
    unfold Console.io_bind at 1. simpl.
    rewrite (IH (done ++ [(k, v)]) used rest).
    + reflexivity.
    + rewrite Ea, <- app_assoc. reflexivity.
    + exact Hwf.
    + simpl in Hlen. lia.
Qed.

(** [reveal_assignments] shows nothing unless the answer is yes: any
    other answer ends the program with [SystemExit].  After a yes it shows
    every entry once, in the order of the dict, each between the giver's
    own prompt and a cleared screen, and reads two lines per entry. *)
Theorem reveal_assignments_shows_each (assignment : dict name)
    (answer : string) (used rest : list string) :
  dict_wf assignment ->
  (lower (strip answer) <> "yes" ->
   Console.reveal_assignments strip lower assignment (answer :: rest) =
   (Console.Exc (Console.SystemExit None), rest,
    [Console.Printed (Console.nl ++ "Do you want to see the assignments? (yes/no): ")%string;
     Console.Printed "Exiting program."])) /\
  (lower (strip answer) = "yes" ->
   length used = 2 * length assignment ->
   Console.reveal_assignments strip lower assignment (answer :: used ++ rest) =
   (Console.Ret tt, rest,
    Console.Printed (Console.nl ++ "Do you want to see the assignments? (yes/no): ")%string
      :: flat_map Console.reveal_block assignment)).
Proof.
  intros Hwf. split.
  - intros Hno. apply String.eqb_neq in Hno.
    unfold Console.reveal_assignments, Console.io_bind. simpl.
    rewrite Hno. reflexivity.
  - intros Hyes Hlen.
    unfold Console.reveal_assignments.
    unfold Console.io_bind at 1. simpl.
    unfold Console.io_bind at 1. simpl.
    rewrite Hyes. simpl.
    rewrite (reveal_each_all assignment assignment [] used rest eq_refl Hwf Hlen).
    reflexivity.
Qed.

End Reveal.

Lemma exchange_wf : dict_wf ([("Alice", "Bob"); ("Bob", "Alice")] : dict name).
Proof. repeat constructor; simpl; intuition discriminate. Defined.

Lemma reveal_assignments_shows_each_witness :
  let assignment := [("Alice", "Bob"); ("Bob", "Alice")] in
  (Console.ascii_lower (Console.ascii_strip " YES") <> "yes" ->
   Console.reveal_assignments Console.ascii_strip Console.ascii_lower assignment
     (" YES" :: ["later"]) =
   (Console.Exc (Console.SystemExit None), ["later"],
    [Console.Printed (Console.nl ++ "Do you want to see the assignments? (yes/no): ")%string;
     Console.Printed "Exiting program."])) /\
  (Console.ascii_lower (Console.ascii_strip " YES") = "yes" ->
   length [""; ""; ""; ""] = 2 * length assignment ->
   Console.reveal_assignments Console.ascii_strip Console.ascii_lower assignment
     (" YES" :: [""; ""; ""; ""] ++ ["later"]) =
   (Console.Ret tt, ["later"],
    Console.Printed (Console.nl ++ "Do you want to see the assignments? (yes/no): ")%string
      :: flat_map Console.reveal_block assignment)).
Proof.
  exact (reveal_assignments_shows_each Console.ascii_strip Console.ascii_lower
           [("Alice", "Bob"); ("Bob", "Alice")] " YES" [""; ""; ""; ""] ["later"]
           exchange_wf).
Defined.

(** ** Looking an assignment up again *)

Lemma dict_get_missing {V : Type} (d : dict V) (k : name) :
  dict_contains d k = false -> exists e, dict_get d k = Err e.
Proof.
  unfold dict_contains. rewrite list_contains_false.
  induction d as [|[k' v'] d IH]; simpl; [eauto|].
  intros H. destruct (String.eqb_spec k k') as [E|N]; [subst; tauto | auto].
Qed.

Section CheckAgain.

Variable strip : string -> string.
Variable lower : string -> string.
Variable assignment : dict name.

Lemma check_again_body_lookup (y n e : string) (tail : list string) :
  Console.yes_no strip lower y = Some true ->
  Console.check_assignments_again_body strip lower assignment tt
    (y :: n :: e :: tail) =
  (Console.Ret (inl tt), tail, Console.lookup_block strip assignment n).
Proof.
  intros Hy. unfold Console.check_assignments_again_body.
  unfold Console.io_bind at 1.
  rewrite (yes_no_at_once strip lower _ y (n :: e :: tail) true Hy).
  unfold Console.io_bind, Console.lookup_block. simpl.
  destruct (dict_contains assignment (strip n)) eqn:Ec.
  - apply list_contains_true in Ec.
    destruct (dict_get_in_keys _ _ Ec) as [receiver Hr]. rewrite Hr.
    reflexivity.
  - destruct (dict_get_missing _ _ Ec) as [err Hr]. rewrite Hr.
    reflexivity.
Qed.

Lemma check_again_body_exit (no : string) (rest : list string) :
  Console.yes_no strip lower no = Some false ->
  Console.check_assignments_again_body strip lower assignment tt (no :: rest) =
  (Console.Ret (inr tt), rest,
   [Console.Prompted "Does anyone need to see their assignment again? (yes/no): ";
    Console.Printed "Exiting program."]).
Proof.
  intros Hno. unfold Console.check_assignments_again_body.
  unfold Console.io_bind at 1.
  rewrite (yes_no_at_once strip lower _ no rest false Hno).
  reflexivity.
Qed.

Lemma check_again_loop (queries : list (string * string * string)) :
  forall fuel no rest,
    length queries < fuel ->
    Forall (fun q => Console.yes_no strip lower (fst (fst q)) = Some true) queries ->
    Console.yes_no strip lower no = Some false ->
    Console.loop fuel (Console.check_assignments_again_body strip lower assignment) tt
      (flat_map Console.lookup_lines queries ++ no :: rest) =
    (Console.Ret tt, rest,
     flat_map (fun q => Console.lookup_block strip assignment (snd (fst q))) queries
       ++ [Console.Prompted "Does anyone need to see their assignment again? (yes/no): ";
           Console.Printed "Exiting program."]).
Proof.
  induction queries as [|[[y n] e] queries IH]; intros fuel no rest Hfuel Hq Hno;
    (destruct fuel as [|fuel]; [simpl in Hfuel; lia|]);
    rewrite loop_unfold; unfold Console.io_bind.
  - simpl app. rewrite (check_again_body_exit no rest Hno). reflexivity.
  - inversion Hq as [|? ? Hy Hq']; subst. simpl in Hy.
    change (flat_map Console.lookup_lines ((y, n, e) :: queries) ++ no :: rest)
      with (y :: n :: e :: (flat_map Console.lookup_lines queries ++ no :: rest)).
    rewrite (check_again_body_lookup y n e _ Hy).
    rewrite (IH fuel no rest); [| simpl in Hfuel; lia | assumption | assumption].
    reflexivity.
Qed.

(** A session of [check_assignments_again]: every lookup (yes, a name,
    Enter) prints the receiver of that name, or that the name is not
    found, and then clears the screen; the first no ends the function,
    which reads nothing after it. *)
Theorem check_assignments_again_session
    (queries : list (string * string * string)) (no : string)
    (rest : list string) :
  Forall (fun q => Console.yes_no strip lower (fst (fst q)) = Some true) queries ->
  Console.yes_no strip lower no = Some false ->
  Console.check_assignments_again strip lower assignment
    (flat_map Console.lookup_lines queries ++ no :: rest) =
  (Console.Ret tt, rest,
   flat_map (fun q => Console.lookup_block strip assignment (snd (fst q))) queries
     ++ [Console.Prompted "Does anyone need to see their assignment again? (yes/no): ";
         Console.Printed "Exiting program."]).
Proof.
  intros Hq Hno. unfold Console.check_assignments_again, Console.while_true.
  apply check_again_loop; [|assumption|assumption].
  rewrite length_app. simpl.
  assert (length queries <= length (flat_map Console.lookup_lines queries)).
  { clear. induction queries as [|q qs IH]; simpl; lia. }
  lia.
Qed.

End CheckAgain.

Lemma check_assignments_again_session_witness :
  let assignment := [("Alice", "Bob"); ("Bob", "Alice")] in
  let queries := [("y", " Alice ", ""); ("Yes", "Carol", "")] in
  Console.check_assignments_again Console.ascii_strip Console.ascii_lower assignment
    (flat_map Console.lookup_lines queries ++ "N" :: ["later"]) =
  (Console.Ret tt, ["later"],
   flat_map (fun q => Console.lookup_block Console.ascii_strip assignment (snd (fst q)))
            queries
     ++ [Console.Prompted "Does anyone need to see their assignment again? (yes/no): ";
         Console.Printed "Exiting program."]).
Proof.
  apply (check_assignments_again_session Console.ascii_strip Console.ascii_lower
           [("Alice", "Bob"); ("Bob", "Alice")]
           [("y", " Alice ", ""); ("Yes", "Carol", "")] "N" ["later"]).
  - repeat constructor.
  - reflexivity.
Defined.

(** ** Reading the participants *)

Lemma dict_get_set {V : Type} (d : dict V) (k k' : name) (v : V) :
  dict_get (dict_set d k v) k' = if k' =? k then Ok v else dict_get d k'.
Proof.
  induction d as [|[k0 v0] d IH]; simpl.
  - reflexivity.
  - destruct (String.eqb_spec k k0) as [E|N]; simpl.
    + subst. destruct (String.eqb_spec k' k0); reflexivity.
    + rewrite IH. destruct (String.eqb_spec k' k0) as [E'|N'];
        [|reflexivity].
      subst. destruct (String.eqb_spec k0 k); congruence.
Qed.

Lemma dict_set_keys {V : Type} (d : dict V) (k k' : name) (v : V) :
  In k' (dict_keys (dict_set d k v)) <-> k' = k \/ In k' (dict_keys d).
Proof.
  induction d as [|[k0 v0] d IH]; simpl.
  - intuition.
  - destruct (String.eqb_spec k k0) as [E|N]; simpl.
    + subst. intuition.
    + rewrite IH. intuition.
Qed.

Lemma dict_set_wf {V : Type} (d : dict V) (k : name) (v : V) :
  dict_wf d -> dict_wf (dict_set d k v).
Proof.
  unfold dict_wf. induction d as [|[k0 v0] d IH]; simpl; intros Hnd.
  - repeat constructor. intros [].
  - inversion Hnd as [|? ? Hk0 Hnd']; subst.
    destruct (String.eqb_spec k k0) as [E|N]; simpl.
    + constructor; assumption.
    + constructor; [|auto].
      fold (dict_keys (dict_set d k v)). rewrite dict_set_keys.
      intros [E|H]; [congruence | contradiction].
Qed.

Lemma partners_ok_empty : Console.partners_ok [].
Proof.
  split; [constructor|]. split; [intros n []|]. intros n p H. discriminate.
Qed.

(** Lines 86-88 keep the participants well formed. *)
Lemma partners_ok_add (ps : dict (option name)) (n : name) (partner : option name) :
  Console.partners_ok ps ->
  n <> "" ->
  Console.partner_is partner n = false ->
  Console.partners_ok
    (match partner with
     | Some p =>
         if negb (p =? "") && negb (dict_contains (dict_set ps n partner) p)
         then dict_set (dict_set ps n partner) p (Some n)
         else dict_set ps n partner
     | None => dict_set ps n partner
     end).
Proof.
  intros (Hwf & Hne & Hp) Hn Hself.
  assert (H1 : Console.partners_ok
                 (dict_set ps n None)).
  { split; [now apply dict_set_wf|]. split.
    - intros k Hk. apply dict_set_keys in Hk. destruct Hk as [->|Hk]; auto.
    - intros k p. rewrite dict_get_set.
      destruct (String.eqb_spec k n) as [->|Nk]; [discriminate|].
      intros Hg. destruct (Hp k p Hg) as [Hpk Hin]. split; [assumption|].
      intros Hpe. apply dict_set_keys. right. now apply Hin. }
  destruct partner as [p0|]; [|exact H1].
  simpl in Hself. apply String.eqb_neq in Hself.
  set (ps1 := dict_set ps n (Some p0)).
  assert (Hwf1 : dict_wf ps1) by now apply dict_set_wf.
  assert (Hne1 : forall k, In k (dict_keys ps1) -> k <> "").
  { intros k Hk. apply dict_set_keys in Hk. destruct Hk as [->|Hk]; auto. }
  assert (Hp1 : forall k p, dict_get ps1 k = Ok (Some p) ->
                p <> k /\ (p <> "" -> In p (dict_keys ps1) \/ (k = n /\ p = p0))).
  { intros k p. unfold ps1. rewrite dict_get_set.
    destruct (String.eqb_spec k n) as [->|Nk].
    - intros [= <-]. split; [assumption|]. intros _. right. auto.
    - intros Hg. destruct (Hp k p Hg) as [Hpk Hin]. split; [assumption|].
      intros Hpe. left. apply dict_set_keys. right. now apply Hin. }
  destruct (negb (p0 =? "") && negb (dict_contains ps1 p0)) eqn:Ec.
  - apply andb_true_iff in Ec. destruct Ec as [Ee Ec].
    apply negb_true_iff, String.eqb_neq in Ee.
    split; [now apply dict_set_wf|]. split.
    + intros k Hk. apply dict_set_keys in Hk. destruct Hk as [->|Hk]; auto.
    + intros k p. rewrite dict_get_set.
      destruct (String.eqb_spec k p0) as [->|Nk].
      * intros [= <-]. split; [congruence|]. intros _.
        apply dict_set_keys. right. apply dict_set_keys. now left.
      * intros Hg. destruct (Hp1 k p Hg) as [Hpk Hin]. split; [assumption|].
        intros Hpe. apply dict_set_keys.
        destruct (Hin Hpe) as [H|[_ ->]]; [now right | now left].
  - split; [assumption|]. split; [assumption|].
    intros k p Hg. destruct (Hp1 k p Hg) as [Hpk Hin]. split; [assumption|].
    intros Hpe. destruct (Hin Hpe) as [H|[_ ->]]; [assumption|].
    apply andb_false_iff in Ec. destruct Ec as [Ec|Ec].
    + apply negb_false_iff, String.eqb_eq in Ec. congruence.
    + apply negb_false_iff in Ec. now apply list_contains_true in Ec.
Qed.

Ltac io_inv H :=
  let a := fresh "a" in
  let ins := fresh "ins" in
  let o1 := fresh "o" in
  let o2 := fresh "o" in
  let H1 := fresh "Hrun" in
  let Ho := fresh "Hout" in
  apply io_bind_ret_inv in H;
  destruct H as (a & ins & o1 & o2 & H1 & H & Ho).

Ltac ret_inv H :=
  unfold Console.ret in H; injection H as <- <- <-.

Section Entry.

Variable strip : string -> string.
Variable lower : string -> string.

Lemma read_pre_assignments_wf (pre pre' : dict name)
    (ins ins' : list string) (out : list Console.event) :
  dict_wf pre ->
  Console.read_pre_assignments strip pre ins = (Console.Ret pre', ins', out) ->
  dict_wf pre'.
Proof.
  intros Hwf H. unfold Console.read_pre_assignments in H.
  revert H. apply (while_true_invariant (fun d : dict name => dict_wf d)
                     (fun d : dict name => dict_wf d)); [|exact Hwf].
  clear. intros s ins r ins' out Hs H.
  unfold Console.read_pre_assignments_body in H.
  io_inv H. cbv zeta in H.
  destruct (strip a =? "1").
  - ret_inv H. exact Hs.
  - io_inv H. io_inv H. ret_inv H.
    destruct (Console.contains_char ">" (strip a)).
    + destruct (Console.split ">" (strip a)) as [|g [|rc [|x parts]]].
      * io_inv Hrun0. ret_inv Hrun0. exact Hs.
      * io_inv Hrun0. ret_inv Hrun0. exact Hs.
      * ret_inv Hrun0. now apply dict_set_wf.
      * io_inv Hrun0. ret_inv Hrun0. exact Hs.
    + ret_inv Hrun0. exact Hs.
Qed.

Lemma read_names_body_ok (st : Console.entry) (ins ins' : list string)
    (r : Console.entry + Console.entry) (out : list Console.event) :
  Console.partners_ok (Console.participants st) /\
  dict_wf (Console.pre_assigned st) ->
  Console.read_names_body strip lower st ins = (Console.Ret r, ins', out) ->
  match r with
  | inl st' | inr st' =>
      Console.partners_ok (Console.participants st') /\
      dict_wf (Console.pre_assigned st')
  end.
Proof.
  intros [Hps Hpre] H. unfold Console.read_names_body in H.
  io_inv H. cbv zeta in H.
  destruct (String.eqb_spec (strip a) "") as [Ee|Ne].
  - io_inv H. ret_inv H. auto.
  - destruct (strip a =? "1").
    + destruct (Console.in_pre_assignment st).
      * ret_inv H. simpl. auto.
      * io_inv H. io_inv H. ret_inv H. simpl. split; [assumption|].
        eapply read_pre_assignments_wf; eassumption.
    + destruct (lower (strip a) =? "done").
      * ret_inv H. auto.
      * io_inv H. cbv zeta in H.
        match type of H with
        | context [Console.partner_is ?p ?n] =>
            destruct (Console.partner_is p n) eqn:Eself
        end.
        -- io_inv H. ret_inv H. auto.
        -- ret_inv H. simpl. split; [|assumption].
           now apply partners_ok_add.
Qed.

Lemma input_participants_body_ok (st : Console.entry) (ins ins' : list string)
    (r : Console.entry + dict (option name) * dict name)
    (out : list Console.event) :
  dict_wf (Console.pre_assigned st) ->
  Console.input_participants_body strip lower st ins = (Console.Ret r, ins', out) ->
  match r with
  | inl st' => dict_wf (Console.pre_assigned st')
  | inr t => Console.partners_ok (fst t) /\ dict_wf (snd t)
  end.
Proof.
  intros Hpre H. unfold Console.input_participants_body in H.
  io_inv H. io_inv H.
  match goal with
  | Hw : Console.while_true _ _ _ = (Console.Ret ?s, _, _) |- _ =>
      assert (Hst : Console.partners_ok (Console.participants s) /\
                    dict_wf (Console.pre_assigned s));
        [revert Hw|]
  end.
  { apply (while_true_invariant
             (fun s => Console.partners_ok (Console.participants s) /\
                       dict_wf (Console.pre_assigned s))
             (fun s => Console.partners_ok (Console.participants s) /\
                       dict_wf (Console.pre_assigned s))).
    - intros s i r0 i' o' Hs Hb.
      pose proof (read_names_body_ok s i i' r0 o' Hs Hb) as Hr.
      destruct r0; exact Hr.
    - simpl. split; [apply partners_ok_empty | assumption]. }
  io_inv H. io_inv H. io_inv H.
  match type of H with
  | context [lower (strip ?x) =? "yes"] => destruct (lower (strip x) =? "yes")
  end; ret_inv H; simpl; tauto.
Qed.

(** Whatever is typed, the two dicts [input_participants] returns are
    well formed: the keys of each are distinct, no name is empty, nobody
    is their own partner, and every partner other than the empty string is
    a participant too. *)
Theorem input_participants_invariants
    (ins ins' : list string) (ps : dict (option name)) (pre : dict name)
    (out : list Console.event) :
  Console.input_participants strip lower ins = (Console.Ret (ps, pre), ins', out) ->
  dict_wf ps /\ dict_wf pre /\
  (forall n, In n (dict_keys ps) -> n <> "") /\
  (forall n p, dict_get ps n = Ok (Some p) ->
               p <> n /\ (p <> "" -> In p (dict_keys ps))).
Proof.
  intros H. unfold Console.input_participants in H.
  assert (Hq : Console.partners_ok (fst (ps, pre)) /\ dict_wf (snd (ps, pre))).
  { revert H.
    apply (while_true_invariant
             (fun s => dict_wf (Console.pre_assigned s))
             (fun t : dict (option name) * dict name =>
                Console.partners_ok (fst t) /\ dict_wf (snd t))).
    - intros s i r i' o' Hs Hb.
      exact (input_participants_body_ok s i i' r o' Hs Hb).
    - constructor. }
  simpl in Hq. destruct Hq as [(Hwf & Hne & Hp) Hpre]. auto.
Qed.

End Entry.

(** ** Termination of the input loops *)

Section Bounded.

Variable allowed : Console.io_exn -> Prop.

Lemma bounded_weaken {A : Type} (strict strict' : A -> bool) (c : Console.io A) :
  (forall a, strict' a = true -> strict a = true) ->
  Console.bounded strict allowed c -> Console.bounded strict' allowed c.
Proof.
  intros Hs Hc ins. specialize (Hc ins).
  destruct (c ins) as [[[a|e|] ins'] out]; try assumption.
  destruct (strict' a) eqn:E'.
  - now rewrite (Hs a E') in Hc.
  - destruct (strict a); lia.
Qed.

Lemma bounded_ret {A : Type} (a : A) :
  Console.bounded (fun _ => false) allowed (Console.ret a).
Proof. intros ins. simpl. lia. Qed.

Lemma bounded_print (s : string) :
  Console.bounded (fun _ => false) allowed (Console.print s).
Proof. intros ins. simpl. lia. Qed.

Lemma bounded_clear :
  Console.bounded (fun _ => false) allowed Console.clear_screen.
Proof. intros ins. simpl. lia. Qed.

Lemma bounded_raise {A : Type} (strict : A -> bool) (e : Console.io_exn) :
  allowed e -> Console.bounded strict allowed (Console.raise e).
Proof. intros He ins. exact He. Qed.

Lemma bounded_input (prompt : string) :
  allowed Console.EOFError ->
  Console.bounded (fun _ => true) allowed (Console.input prompt).
Proof. intros He [|l ins]; simpl; [exact He | lia]. Qed.

Lemma bounded_input_bare :
  allowed Console.EOFError ->
  Console.bounded (fun _ => true) allowed Console.input_bare.
Proof. intros He [|l ins]; simpl; [exact He | lia]. Qed.

Lemma bounded_bind_r {A B : Type} (strict : B -> bool)
    (c : Console.io A) (k : A -> Console.io B) :
  Console.bounded (fun _ => false) allowed c ->
  (forall a, Console.bounded strict allowed (k a)) ->
  Console.bounded strict allowed (Console.io_bind c k).
Proof.
  intros Hc Hk ins. unfold Console.io_bind. specialize (Hc ins).
  destruct (c ins) as [[[a|e|] ins'] out]; try assumption.
  specialize (Hk a ins').
  destruct (k a ins') as [[[b|e|] ins''] out']; try assumption.
  destruct (strict b); lia.
Qed.

Lemma bounded_bind_l {A B : Type} (strict : B -> bool)
    (c : Console.io A) (k : A -> Console.io B) :
  Console.bounded (fun _ => true) allowed c ->
  (forall a, Console.bounded (fun _ => false) allowed (k a)) ->
  Console.bounded strict allowed (Console.io_bind c k).
Proof.
  intros Hc Hk ins. unfold Console.io_bind. specialize (Hc ins).
  destruct (c ins) as [[[a|e|] ins'] out]; try assumption.
  specialize (Hk a ins').
  destruct (k a ins') as [[[b|e|] ins''] out']; try assumption.
  destruct (strict b); lia.
Qed.

Lemma loop_bounded {S A : Type} (strict : A -> bool)
    (body : S -> Console.io (S + A)) :
  (forall s, Console.bounded (Console.goes_on strict) allowed (body s)) ->
  forall fuel s ins,
    length ins < fuel ->
    match Console.loop fuel body s ins with
    | (Console.Ret a, ins', _) =>
        if strict a then length ins' < length ins
        else length ins' <= length ins
    | (Console.Exc e, _, _) => allowed e
    | (Console.Diverged, _, _) => False
    end.
Proof.
  intros Hbody. induction fuel as [|fuel IH]; intros s ins Hfuel; [lia|].
  rewrite loop_unfold. unfold Console.io_bind.
  pose proof (Hbody s ins) as Hb.
  destruct (body s ins) as [[[[s'|a]|e|] ins'] out]; try assumption.
  simpl in Hb. specialize (IH s' ins' ltac:(lia)).
  destruct (Console.loop fuel body s' ins') as [[[a|e|] ins''] out'];
    try assumption.
  destruct (strict a); lia.
Qed.

Lemma while_true_bounded {S A : Type} (strict : A -> bool)
    (body : S -> Console.io (S + A)) (s : S) :
  (forall s, Console.bounded (Console.goes_on strict) allowed (body s)) ->
  Console.bounded strict allowed (Console.while_true body s).
Proof.
  intros Hbody ins. unfold Console.while_true.
  apply loop_bounded; [exact Hbody | lia].
Qed.

End Bounded.

Ltac nonstrict :=
  cbv zeta;
  match goal with
  | |- Console.bounded _ _ (Console.ret _) => apply bounded_ret
  | |- Console.bounded _ _ (Console.lift (Ok _)) => apply bounded_ret
  | |- Console.bounded _ _ (Console.print _) => apply bounded_print
  | |- Console.bounded _ _ Console.clear_screen => apply bounded_clear
  | |- Console.bounded _ _ (Console.raise _) =>
      apply bounded_raise; auto
  | |- Console.bounded _ _ (Console.input _) =>
      apply (bounded_weaken _ (fun _ => true));
      [discriminate | apply bounded_input; auto]
  | |- Console.bounded _ _ Console.input_bare =>
      apply (bounded_weaken _ (fun _ => true));
      [discriminate | apply bounded_input_bare; auto]
  | |- Console.bounded _ _ (Console.io_bind _ _) =>
      apply bounded_bind_r; [|intros ?]
  | |- Console.bounded _ _ (if ?c then _ else _) => destruct c
  | |- Console.bounded _ _ (match ?x with _ => _ end) => destruct x
  end.

Section Termination.

Variable strip : string -> string.
Variable lower : string -> string.

Lemma yes_no_bounded (allowed : Console.io_exn -> Prop) (prompt : string) :
  allowed Console.EOFError ->
  Console.bounded (fun _ => true) allowed
    (Console.get_yes_or_no_input strip lower prompt).
Proof.
  intros He. apply while_true_bounded. intros [].
  unfold Console.get_yes_or_no_input_body.
  apply bounded_bind_l; [now apply bounded_input|].
  intros a. repeat nonstrict.
Qed.

Lemma check_again_bounded (allowed : Console.io_exn -> Prop)
    (assignment : dict name) :
  allowed Console.EOFError ->
  Console.bounded (fun _ => true) allowed
    (Console.check_assignments_again strip lower assignment).
Proof.
  intros He. apply while_true_bounded. intros [].
  unfold Console.check_assignments_again_body.
  apply bounded_bind_l; [now apply yes_no_bounded|].
  intros again. destruct again; simpl negb; cbv iota; [|repeat nonstrict].
  apply bounded_bind_r; [nonstrict|]. intros santa. cbv zeta.
  destruct (dict_contains assignment (strip santa)) eqn:Ec; [|repeat nonstrict].
  apply list_contains_true in Ec.
  destruct (dict_get_in_keys _ _ Ec) as [receiver Hr]. rewrite Hr.
  repeat nonstrict.
Qed.

Lemma read_pre_assignments_bounded (allowed : Console.io_exn -> Prop)
    (pre : dict name) :
  allowed Console.EOFError ->
  Console.bounded (fun _ => true) allowed (Console.read_pre_assignments strip pre).
Proof.
  intros He. apply while_true_bounded. intros s.
  unfold Console.read_pre_assignments_body.
  apply bounded_bind_l; [now apply bounded_input_bare|].
  intros a. repeat nonstrict.
Qed.

Lemma read_names_bounded (allowed : Console.io_exn -> Prop) (st : Console.entry) :
  allowed Console.EOFError ->
  Console.bounded (fun _ => true) allowed
    (Console.while_true (Console.read_names_body strip lower) st).
Proof.
  intros He. apply while_true_bounded. intros s.
  unfold Console.read_names_body.
  apply bounded_bind_l; [now apply bounded_input|].
  intros a. cbv zeta.
  repeat first
    [ nonstrict
    | apply (bounded_weaken _ (fun _ => true));
      [discriminate | now apply read_pre_assignments_bounded] ].
Qed.

Lemma display_bounded (allowed : Console.io_exn -> Prop)
    (items : list (name * option name)) :
  forall displayed,
    Console.bounded (fun _ => false) allowed (Console.display items displayed).
Proof.
  induction items as [|[participant partner] items IH]; intros displayed;
    simpl Console.display.
  - apply bounded_ret.
  - repeat first [apply IH | nonstrict].
Qed.

Lemma input_participants_bounded (allowed : Console.io_exn -> Prop) :
  allowed Console.EOFError ->
  Console.bounded (fun _ => true) allowed
    (Console.input_participants strip lower).
Proof.
  intros He. apply while_true_bounded. intros s.
  unfold Console.input_participants_body.
  apply bounded_bind_r; [nonstrict|]. intros _.
  apply bounded_bind_r.
  { apply (bounded_weaken _ (fun _ => true));
      [discriminate | now apply read_names_bounded]. }
  intros st.
  apply bounded_bind_r; [nonstrict|]. intros _.
  apply bounded_bind_r; [apply display_bounded|]. intros _.
  apply bounded_bind_l; [now apply bounded_input|].
  intros confirm. repeat nonstrict.
Qed.

(** The loops that read the console always end: on every input,
    [get_yes_or_no_input], [check_assignments_again] and
    [input_participants] return after reading at least one line, or raise
    [EOFError] when the input runs out.  They raise nothing else. *)
Theorem input_loops_terminate (prompt : string) (assignment : dict name) :
  Console.bounded (fun _ => true) (fun e => e = Console.EOFError)
    (Console.get_yes_or_no_input strip lower prompt) /\
  Console.bounded (fun _ => true) (fun e => e = Console.EOFError)
    (Console.check_assignments_again strip lower assignment) /\
  Console.bounded (fun _ => true) (fun e => e = Console.EOFError)
    (Console.input_participants strip lower).
Proof.
  split; [|split].
  - now apply yes_no_bounded.
  - now apply check_again_bounded.
  - now apply input_participants_bounded.
Qed.

End Termination.

(** ** The main program after an infeasible configuration *)

(** A loop whose passes never leave it by [break] ends with an
    exception. *)
Lemma loop_fails {S A : Type} (P : S -> Prop) (allowed : Console.io_exn -> Prop)
    (body : S -> Console.io (S + A)) :
  (forall s ins, P s ->
     match body s ins with
     | (Console.Ret (inl s'), ins', _) => P s' /\ length ins' < length ins
     | (Console.Ret (inr _), _, _) => False
     | (Console.Exc e, _, _) => allowed e
     | (Console.Diverged, _, _) => False
     end) ->
  forall fuel s ins,
    P s -> length ins < fuel ->
    exists e ins' out,
      Console.loop fuel body s ins = (Console.Exc e, ins', out) /\ allowed e.
Proof.
  intros Hbody. induction fuel as [|fuel IH]; intros s ins Hs Hfuel; [lia|].
  rewrite loop_unfold. unfold Console.io_bind.
  pose proof (Hbody s ins Hs) as Hb.
  destruct (body s ins) as [[[[s'|a]|e|] ins'] out]; try contradiction.
  - destruct Hb as [Hs' Hlen].
    destruct (IH s' ins' Hs' ltac:(lia)) as (e & ins'' & out' & Hl & He).
    rewrite Hl. eauto.
  - eauto.
Qed.

(** On the pair, the check raises [TypeError] or answers [False]. *)
Lemma pair_check (d : dict (option name)) (pre : dict name) :
  (Console.element_eqb (Console.PreAssigned pre) (Console.Participants d) = false ->
   Console.is_assignment_possible_value (Console.AsPair d pre) = Err TypeError) /\
  (Console.is_assignment_possible_value (Console.AsPair d pre) = Ok false \/
   Console.is_assignment_possible_value (Console.AsPair d pre) = Err TypeError).
Proof.
  unfold Console.is_assignment_possible_value. cbv zeta.
  unfold Console.check_santas_pair, Console.recipients_of_pair.
  simpl.
  destruct (Console.dict_eqb Console.partner_eqb d d);
    destruct (Console.dict_eqb (fun n p => Console.partner_is p n) pre d);
    simpl; (split; [intros E; try discriminate E; reflexivity | auto]).
Qed.

Section Main.

Variable strip : string -> string.
Variable lower : string -> string.

Lemma feasibility_body_fails (v : Console.participants_value) (ins : list string) :
  Console.is_assignment_possible_value v = Ok false \/
  Console.is_assignment_possible_value v = Err TypeError ->
  match Console.feasibility_body strip lower v ins with
  | (Console.Ret (inl v'), ins', _) =>
      (Console.is_assignment_possible_value v' = Ok false \/
       Console.is_assignment_possible_value v' = Err TypeError) /\
      length ins' < length ins
  | (Console.Ret (inr _), _, _) => False
  | (Console.Exc e, _, _) => Console.after_infeasible e
  | (Console.Diverged, _, _) => False
  end.
Proof.
  intros [Hc|Hc]; unfold Console.feasibility_body, Console.io_bind at 1;
    rewrite Hc; simpl Console.lift.
  - unfold Console.io_bind. destruct ins as [|c rest]; simpl.
    + left. reflexivity.
    + destruct (lower (strip c) =? "yes"); simpl.
      * pose proof (input_participants_bounded strip lower
                      Console.after_infeasible (or_introl eq_refl) rest) as Hb.
        destruct (Console.input_participants strip lower rest)
          as [[[t|e|] ins'] out]; simpl; [|exact Hb|exact Hb].
        split; [apply pair_check | simpl in Hb; lia].
      * right. left. reflexivity.
  - simpl. right. right. reflexivity.
Qed.

Lemma feasibility_body_reenter (v : Console.participants_value) (c : string)
    (ins2 ins3 : list string) (t : dict (option name) * dict name)
    (o2 : list Console.event) :
  Console.is_assignment_possible_value v = Ok false ->
  lower (strip c) = "yes" ->
  Console.input_participants strip lower ins2 = (Console.Ret t, ins3, o2) ->
  exists out,
    Console.feasibility_body strip lower v (c :: ins2) =
    (Console.Ret (inl (Console.AsPair (fst t) (snd t))), ins3, out).
Proof.
  intros Hc Hyes Hin2. unfold Console.feasibility_body, Console.io_bind.
  rewrite Hc. simpl. rewrite Hyes. simpl. rewrite Hin2.
  eexists. reflexivity.
Qed.

Lemma feasibility_body_type_error (v : Console.participants_value)
    (ins : list string) :
  Console.is_assignment_possible_value v = Err TypeError ->
  Console.feasibility_body strip lower v ins =
  (Console.Exc (Console.CoreError TypeError), ins, []).
Proof.
  intros Hc. unfold Console.feasibility_body, Console.io_bind.
  rewrite Hc. reflexivity.
Qed.

(** Once the first configuration fails the check, the main program
    never gets to the assignment: whatever is typed, it ends with
    [EOFError], with [exit(0)], or with [TypeError].  Line 213 stores the
    pair that [input_participants] returns, not its first component, so
    after the user has re-entered the participants the check runs on that
    pair: it raises [TypeError] as soon as the new pre-assignments differ
    from the new participants as dicts, and it answers [False] when they
    are equal. *)
Theorem main_fails_after_infeasible
    (fuel : nat) (attempts : nat -> rng) (ins ins1 : list string)
    (ps : dict (option name)) (pre : dict name) (o1 : list Console.event) :
  Console.input_participants strip lower ins = (Console.Ret (ps, pre), ins1, o1) ->
  is_assignment_possible ps = Ok false ->
  (exists e ins' out,
      Console.main strip lower fuel attempts ins = (Console.Exc e, ins', out) /\
      Console.after_infeasible e) /\
  (forall c ins2 ps2 pre2 ins3 o2,
      ins1 = c :: ins2 ->
      lower (strip c) = "yes" ->
      Console.input_participants strip lower ins2 =
        (Console.Ret (ps2, pre2), ins3, o2) ->
      Console.element_eqb (Console.PreAssigned pre2) (Console.Participants ps2) = false ->
      exists out,
        Console.main strip lower fuel attempts ins =
        (Console.Exc (Console.CoreError TypeError), ins3, out)).
Proof.
  intros Hin Hcheck. split.
  - unfold Console.main, Console.io_bind at 1. rewrite Hin. simpl fst. simpl snd.
    unfold Console.io_bind at 1.
    destruct (loop_fails
                (fun v => Console.is_assignment_possible_value v = Ok false \/
                          Console.is_assignment_possible_value v = Err TypeError)
                Console.after_infeasible
                (Console.feasibility_body strip lower)
                (fun s i H => feasibility_body_fails s i H)
                (S (length ins1)) (Console.AsDict ps) ins1
                (or_introl Hcheck) (Nat.lt_succ_diag_r _))
      as (e & ins' & out & Hl & He).
    unfold Console.while_true. rewrite Hl.
    exists e, ins', (o1 ++ out). auto.
  - intros c ins2 ps2 pre2 ins3 o2 -> Hyes Hin2 Hneq.
    destruct (feasibility_body_reenter (Console.AsDict ps) c ins2 ins3
                (ps2, pre2) o2 Hcheck Hyes Hin2) as [out1 Hb1].
    pose proof (feasibility_body_type_error (Console.AsPair ps2 pre2) ins3
                  (proj1 (pair_check ps2 pre2) Hneq)) as Hb2.
    unfold Console.main, Console.io_bind at 1. rewrite Hin. simpl fst. simpl snd.
    unfold Console.io_bind at 1. unfold Console.while_true.
    simpl length. rewrite loop_unfold. unfold Console.io_bind at 1.
    rewrite Hb1. simpl fst. simpl snd.
    rewrite loop_unfold. unfold Console.io_bind at 1.
    rewrite Hb2. eexists. reflexivity.
Qed.

End Main.

Lemma main_fails_after_infeasible_witness :
  let ins := ["A"; "none"; "done"; "yes"; "yes"; "A"; "B"; "done"; "yes"; "x"] in
  (exists e ins' out,
      Console.main Console.ascii_strip Console.ascii_lower 1 (fun _ => ones) ins =
        (Console.Exc e, ins', out) /\
      Console.after_infeasible e) /\
  (forall c ins2 ps2 pre2 ins3 o2,
      ["yes"; "A"; "B"; "done"; "yes"; "x"] = c :: ins2 ->
      Console.ascii_lower (Console.ascii_strip c) = "yes" ->
      Console.input_participants Console.ascii_strip Console.ascii_lower ins2 =
        (Console.Ret (ps2, pre2), ins3, o2) ->
      Console.element_eqb (Console.PreAssigned pre2) (Console.Participants ps2) = false ->
      exists out,
        Console.main Console.ascii_strip Console.ascii_lower 1 (fun _ => ones) ins =
        (Console.Exc (Console.CoreError TypeError), ins3, out)).
Proof.
  eapply (main_fails_after_infeasible Console.ascii_strip Console.ascii_lower
            1 (fun _ => ones)
            ["A"; "none"; "done"; "yes"; "yes"; "A"; "B"; "done"; "yes"; "x"]
            ["yes"; "A"; "B"; "done"; "yes"; "x"] [("A", None)] []).
  - vm_compute. reflexivity.
  - reflexivity.
Defined.

Lemma input_participants_invariants_witness :
  let ps := [("A", Some "B"); ("B", Some "A"); ("C", None)] in
  let pre := [("A", "C")] in
  dict_wf ps /\ dict_wf pre /\
  (forall n, In n (dict_keys ps) -> n <> "") /\
  (forall n p, dict_get ps n = Ok (Some p) ->
               p <> n /\ (p <> "" -> In p (dict_keys ps))).
Proof.
  eapply (input_participants_invariants Console.ascii_strip Console.ascii_lower
            ["A"; "B"; "C"; "none"; "1"; "A > C"; "1"; "Done"; "yes"; "later"]).
  vm_compute. reflexivity.
Defined.

(** ** The lines of the pre-assignments *)

Lemma contains_char_app (c : ascii) (g r : string) :
  Console.contains_char c (g ++ String c r)%string = true.
Proof.
  induction g as [|c' g IH]; simpl.
  - now rewrite Ascii.eqb_refl.
  - rewrite IH. apply orb_true_r.
Qed.

Lemma split_one (c : ascii) (g r : string) :
  Console.contains_char c g = false ->
  Console.contains_char c r = false ->
  Console.split c (g ++ String c r)%string = [g; r].
Proof.
  intros Hg Hr.
  assert (Hsplit : Console.split c r = [r]).
  { clear Hg. induction r as [|c' r IH]; simpl; [reflexivity|].
    simpl in Hr. apply orb_false_iff in Hr. destruct Hr as [Hc Hr].
    rewrite Hc, (IH Hr). reflexivity. }
  induction g as [|c' g IH]; simpl.
  - rewrite Ascii.eqb_refl, Hsplit. reflexivity.
  - simpl in Hg. apply orb_false_iff in Hg. destruct Hg as [Hc Hg].
    rewrite Hc, (IH Hg). reflexivity.
Qed.

Section PreAssignments.

Variable strip : string -> string.

Lemma pre_body_stop (pre : dict name) (stop : string) (rest : list string) :
  strip stop = "1" ->
  Console.read_pre_assignments_body strip pre (stop :: rest) =
  (Console.Ret (inr pre), rest, []).
Proof.
  intros Hs. unfold Console.read_pre_assignments_body, Console.io_bind.
  simpl. rewrite Hs. reflexivity.
Qed.

Lemma pre_body_record (pre : dict name) (l g r : string) (tail : list string) :
  strip l = (g ++ String ">" r)%string ->
  Console.contains_char ">" g = false ->
  Console.contains_char ">" r = false ->
  Console.read_pre_assignments_body strip pre (l :: tail) =
  (Console.Ret (inl (dict_set pre (strip g) (strip r))), tail, [Console.Cleared]).
Proof.
  intros Hl Hg Hr. unfold Console.read_pre_assignments_body, Console.io_bind.
  simpl. rewrite Hl.
  assert (Hne : ((g ++ String ">" r)%string =? "1") = false).
  { apply String.eqb_neq. intros E.
    pose proof (contains_char_app ">" g r) as Hc. rewrite E in Hc.
    discriminate Hc. }
  rewrite Hne, contains_char_app, (split_one _ _ _ Hg Hr). reflexivity.
Qed.

Lemma pre_body_ignore (pre : dict name) (l : string) (tail : list string) :
  strip l <> "1" ->
  length (Console.split ">" (strip l)) <> 2 ->
  Console.read_pre_assignments_body strip pre (l :: tail) =
  (Console.Ret (inl pre), tail,
   if Console.contains_char ">" (strip l)
   then [Console.Printed "Invalid format for assignment. Please use 'Giver > Receiver'.";
         Console.Cleared]
   else [Console.Cleared]).
Proof.
  intros Hl Hlen. apply String.eqb_neq in Hl.
  unfold Console.read_pre_assignments_body, Console.io_bind.
  simpl. rewrite Hl.
  destruct (Console.contains_char ">" (strip l)); [|reflexivity].
  destruct (Console.split ">" (strip l)) as [|a [|b [|x parts]]];
    try reflexivity.
  simpl in Hlen. congruence.
Qed.

Lemma pre_loop_record (lines : list string) :
  forall (pairs : list (string * string)) (pre : dict name) fuel stop rest,
    length lines < fuel ->
    Forall2 (Console.says strip) lines pairs ->
    strip stop = "1" ->
    Console.loop fuel (Console.read_pre_assignments_body strip) pre
                 (lines ++ stop :: rest) =
    (Console.Ret
       (fold_left (fun d gr => dict_set d (strip (fst gr)) (strip (snd gr)))
                  pairs pre),
     rest, map (fun _ => Console.Cleared) lines).
Proof.
  induction lines as [|l lines IH]; intros pairs pre fuel stop rest Hfuel Hs Hstop;
    (destruct fuel as [|fuel]; [simpl in Hfuel; lia|]);
    rewrite loop_unfold; unfold Console.io_bind; simpl app;
    inversion Hs as [|? gr ? pairs' (Hl & Hg & Hr) Hs']; subst.
  - rewrite (pre_body_stop pre stop rest Hstop). reflexivity.
  - rewrite (pre_body_record pre l (fst gr) (snd gr) _ Hl Hg Hr).
    rewrite (IH pairs' _ fuel stop rest); [reflexivity | | assumption | assumption].
    simpl in Hfuel. lia.
Qed.

Lemma pre_loop_ignore (lines : list string) :
  forall (pre : dict name) fuel stop rest,
    length lines < fuel ->
    Forall (fun l => strip l <> "1" /\
                     length (Console.split ">" (strip l)) <> 2) lines ->
    strip stop = "1" ->
    Console.loop fuel (Console.read_pre_assignments_body strip) pre
                 (lines ++ stop :: rest) =
    (Console.Ret pre, rest,
     flat_map (fun l =>
                 if Console.contains_char ">" (strip l)
                 then [Console.Printed "Invalid format for assignment. Please use 'Giver > Receiver'.";
                       Console.Cleared]
                 else [Console.Cleared]) lines).
Proof.
  induction lines as [|l lines IH]; intros pre fuel stop rest Hfuel Hs Hstop;
    (destruct fuel as [|fuel]; [simpl in Hfuel; lia|]);
    rewrite loop_unfold; unfold Console.io_bind; simpl app.
  - rewrite (pre_body_stop pre stop rest Hstop). reflexivity.
  - inversion Hs as [|? ? [Hl Hlen] Hs']; subst.
    rewrite (pre_body_ignore pre l _ Hl Hlen).
    rewrite (IH pre fuel stop rest); [reflexivity | | assumption | assumption].
    simpl in Hfuel. lia.
Qed.

(** Lines of the form [Giver > Receiver], with one [>], are recorded in
    the order they are typed, giver and receiver stripped, a later line
    for the same giver replacing the earlier one; the screen is cleared
    after each, and the line [1] ends the loop. *)
Theorem read_pre_assignments_records
    (lines : list string) (pairs : list (string * string))
    (pre : dict name) (stop : string) (rest : list string) :
  Forall2 (Console.says strip) lines pairs ->
  strip stop = "1" ->
  Console.read_pre_assignments strip pre (lines ++ stop :: rest) =
  (Console.Ret
     (fold_left (fun d gr => dict_set d (strip (fst gr)) (strip (snd gr)))
                pairs pre),
   rest, map (fun _ => Console.Cleared) lines).
Proof.
  intros Hs Hstop. unfold Console.read_pre_assignments, Console.while_true.
  apply pre_loop_record; [|assumption|assumption].
  rewrite length_app. simpl. lia.
Qed.

(** A line that does not split into two parts at [>] changes nothing.
    Without any [>] it is dropped without a word; only a line with two or
    more gets the message about the format. *)
Theorem read_pre_assignments_ignores
    (lines : list string) (pre : dict name) (stop : string) (rest : list string) :
  Forall (fun l => strip l <> "1" /\
                   length (Console.split ">" (strip l)) <> 2) lines ->
  strip stop = "1" ->
  Console.read_pre_assignments strip pre (lines ++ stop :: rest) =
  (Console.Ret pre, rest,
   flat_map (fun l =>
               if Console.contains_char ">" (strip l)
               then [Console.Printed "Invalid format for assignment. Please use 'Giver > Receiver'.";
                     Console.Cleared]
               else [Console.Cleared]) lines).
Proof.
  intros Hs Hstop. unfold Console.read_pre_assignments, Console.while_true.
  apply pre_loop_ignore; [|assumption|assumption].
  rewrite length_app. simpl. lia.
Qed.

End PreAssignments.

Lemma read_pre_assignments_records_witness :
  Console.read_pre_assignments Console.ascii_strip [("A", "B")]
    ([" A>C "; "B>A"] ++ " 1" :: ["later"]) =
  (Console.Ret
     (fold_left (fun d gr => dict_set d (Console.ascii_strip (fst gr))
                                        (Console.ascii_strip (snd gr)))
                [("A", "C"); ("B", "A")] [("A", "B")]),
   ["later"], map (fun _ => Console.Cleared) [" A>C "; "B>A"]).
Proof.
  apply (read_pre_assignments_records Console.ascii_strip
           [" A>C "; "B>A"] [("A", "C"); ("B", "A")] [("A", "B")] " 1" ["later"]).
  - repeat constructor.
  - reflexivity.
Defined.

Lemma read_pre_assignments_ignores_witness :
  Console.read_pre_assignments Console.ascii_strip [("A", "B")]
    (["A to C"; "A>B>C"] ++ "1" :: ["later"]) =
  (Console.Ret [("A", "B")], ["later"],
   flat_map (fun l =>
               if Console.contains_char ">" (Console.ascii_strip l)
               then [Console.Printed "Invalid format for assignment. Please use 'Giver > Receiver'.";
                     Console.Cleared]
               else [Console.Cleared]) ["A to C"; "A>B>C"]).
Proof.
  apply (read_pre_assignments_ignores Console.ascii_strip
           ["A to C"; "A>B>C"] [("A", "B")] "1" ["later"]).
  - repeat constructor; simpl; discriminate.
  - reflexivity.
Defined.
